(** * TexTra: the text core of [app.py]

    A shallow embedding of the functions of [src/app.py]: the text
    processing ([analyze_text], [split_into_sentences], [fallback_summarize],
    [summarize_text], [extract_topics], [extract_text_from_pdf]), the
    language tables of [detect_language] and [translate_text], the accounts
    ([signup], [login]) and the page dispatch with the handlers of its
    buttons; and theorems about them.  What libraries outside the
    repository compute (the LSA summarizer, the language detector, the
    translator, the PDF reader, the hash) is a parameter.

    A Python [str] is a list of characters.  Characters are the code points
    U+0000..U+00FF, for which the character classes of Python 3 ([str.isspace],
    the [\w] and [\s] of [re] on [str] patterns, [str.lower]) are written out
    in full.  A Python [int] is a [Z], a Python [float] is a binary64
    [PrimFloat.float].  A [dict] or [Counter] is an association list in
    insertion order, which is the order Python iterates them in. *)

From Stdlib Require Import Bool Ascii String List ZArith NArith Lia.
From Stdlib Require Import Floats Uint63 Sorted Permutation.
Import ListNotations.

Local Open Scope Z_scope.

(** ** The Python values and library functions the program uses *)

Module Py.

Definition str := list ascii.

(** A string literal. *)
Definition lit (s : string) : str := list_ascii_of_string s.

Definition str_eq_dec : forall a b : str, {a = b} + {a <> b} :=
  list_eq_dec ascii_dec.

Definition str_eqb (a b : str) : bool :=
  if str_eq_dec a b then true else false.

Definition ord (c : ascii) : N := N_of_ascii c.

Definition between (lo hi : N) (c : ascii) : bool :=
  ((lo <=? ord c) && (ord c <=? hi))%N.

(** [str.isspace] on one character, which is also [\s] of [re]:
    TAB..CR, the separators FS..US, SPACE, NEL and NO-BREAK SPACE. *)
Definition isspace (c : ascii) : bool :=
  between 9 13 c || between 28 32 c || (ord c =? 133)%N || (ord c =? 160)%N.

(** [A-Z] and [a-z] of a pattern without flags. *)
Definition is_AZ (c : ascii) : bool := between 65 90 c.
Definition is_az (c : ascii) : bool := between 97 122 c.

(** The alphanumeric characters below U+0100: digits, letters, the ordinal
    indicators, micro sign, superscript digits, vulgar fractions and the
    accented letters (all of U+00C0..U+00FF but the two operators). *)
Definition isalnum (c : ascii) : bool :=
  between 48 57 c || is_AZ c || is_az c
  || (ord c =? 170)%N || (ord c =? 178)%N || (ord c =? 179)%N
  || (ord c =? 181)%N || (ord c =? 185)%N || (ord c =? 186)%N
  || between 188 190 c
  || between 192 214 c || between 216 246 c || between 248 255 c.

(** [\w] of [re]: alphanumeric or underscore. *)
Definition is_word (c : ascii) : bool := isalnum c || (ord c =? 95)%N.

(** [str.lower] on the characters below U+0100, where every lower-case
    mapping is one character, 32 code points up.  (Beyond them [str.lower]
    can lengthen a text, as for U+0130, and reads the context of a capital
    sigma.) *)
Definition lower_char (c : ascii) : ascii :=
  if is_AZ c || between 192 214 c || between 216 222 c
  then ascii_of_N (ord c + 32) else c.

Definition lower (s : str) : str := map lower_char s.

Definition len {A} (l : list A) : Z := Z.of_nat (length l).

(** [str.strip()] with no argument. *)
Fixpoint lstrip (s : str) : str :=
  match s with
  | c :: r => if isspace c then lstrip r else s
  | [] => []
  end.

Definition rstrip (s : str) : str := rev (lstrip (rev s)).

Definition strip (s : str) : str := rstrip (lstrip s).

(** [str.split()] with no argument: the maximal runs of characters that
    are not whitespace.  [word] is the run being read, last character
    first. *)
Fixpoint split_from (word : str) (s : str) : list str :=
  match s with
  | [] => match word with [] => [] | _ => [rev word] end
  | c :: r =>
      if isspace c
      then match word with
           | [] => split_from [] r
           | _ => rev word :: split_from [] r
           end
      else split_from (c :: word) r
  end.

Definition split (s : str) : list str := split_from [] s.

(** [sep.join(l)]. *)
Fixpoint join (sep : str) (l : list str) : str :=
  match l with
  | [] => []
  | [s] => s
  | s :: r => s ++ sep ++ join sep r
  end.

(** [re.split(p, text)] for a pattern [p] without groups that consumes
    exactly one character.  [p before c] says whether [p] matches the
    character [c] when [before] is the text to its left, nearest character
    first (look-behind sees the whole text).  [piece] is the piece being
    read, last character first. *)
Fixpoint re_split_from (p : str -> ascii -> bool) (before piece : str)
    (s : str) : list str :=
  match s with
  | [] => [rev piece]
  | c :: r =>
      if p before c
      then rev piece :: re_split_from p (c :: before) [] r
      else re_split_from p (c :: before) (c :: piece) r
  end.

Definition re_split (p : str -> ascii -> bool) (text : str) : list str :=
  re_split_from p [] [] text.

(** [re.sub(p, '', s)] for a pattern [p] that is one character class. *)
Definition re_sub_empty (p : ascii -> bool) (s : str) : str :=
  filter (fun c => negb (p c)) s.

(** *** Numbers *)

Inductive number :=
| PyInt (z : Z)
| PyFloat (f : float).

(** [float(z)], exact for [0 <= z < 2^53]. *)
Definition float_of_int (z : Z) : float :=
  PrimFloat.of_uint63 (Uint63.of_Z z).

Definition to_float (x : number) : float :=
  match x with PyInt z => float_of_int z | PyFloat f => f end.

(** [x < y]. *)
Definition number_lt (x y : number) : bool :=
  match x, y with
  | PyInt a, PyInt b => a <? b
  | _, _ => PrimFloat.ltb (to_float x) (to_float y)
  end.

(** [sum(l)] on ints. *)
Definition sum (l : list Z) : Z := fold_left Z.add l 0.

(** *** Exceptions *)

Inductive exn := ZeroDivisionError | IndexError.

Inductive result (A : Type) :=
| Ok (a : A)
| Raise (e : exn).
Arguments Ok {A} a.
Arguments Raise {A} e.

Definition bind {A B} (m : result A) (k : A -> result B) : result B :=
  match m with Ok a => k a | Raise e => Raise e end.

Fixpoint mapM {A B} (f : A -> result B) (l : list A) : result (list B) :=
  match l with
  | [] => Ok []
  | a :: r =>
      bind (f a) (fun b => bind (mapM f r) (fun bs => Ok (b :: bs)))
  end.

(** [a / b] on ints: true division, correctly rounded. *)
Definition truediv (a b : Z) : result float :=
  if b =? 0 then Raise ZeroDivisionError
  else Ok (PrimFloat.div (float_of_int a) (float_of_int b)).

(** [l[i]] for an index [i >= 0]. *)
Definition getitem {A} (l : list A) (i : nat) : result A :=
  match nth_error l i with
  | Some a => Ok a
  | None => Raise IndexError
  end.

(** *** Lists *)

Definition enumerate {A} (l : list A) : list (nat * A) :=
  combine (seq 0 (length l)) l.

(** [l[:n]]; a negative [n] counts from the end. *)
Definition slice_to {A} (n : Z) (l : list A) : list A :=
  if 0 <=? n then firstn (Z.to_nat n) l
  else firstn (length l - Z.to_nat (- n)) l.

(** [sorted], which is stable.  [before y x] says that [y] has to come
    strictly before [x]; an element is put in front of the first element
    that does not have to come before it, so elements that compare equal
    keep their order. *)
Section Sorted.
Context {A : Type} (before : A -> A -> bool).

Fixpoint insert (x : A) (l : list A) : list A :=
  match l with
  | [] => [x]
  | y :: r => if before y x then y :: insert x r else x :: l
  end.

Fixpoint sorted_by (l : list A) : list A :=
  match l with
  | [] => []
  | x :: r => insert x (sorted_by r)
  end.

End Sorted.

(** [sorted(l, key=key)] with keys compared by [lt]. *)
Definition sorted {A K} (lt : K -> K -> bool) (key : A -> K) (l : list A) :=
  sorted_by (fun y x => lt (key y) (key x)) l.

(** [sorted(l, key=key, reverse=True)]. *)
Definition sorted_reverse {A K} (lt : K -> K -> bool) (key : A -> K)
    (l : list A) :=
  sorted_by (fun y x => lt (key x) (key y)) l.

(** *** [collections.Counter] *)

Definition Counter := list (str * Z).

Definition keys (c : Counter) : list str := map fst c.
Definition values (c : Counter) : list Z := map snd c.
Definition items (c : Counter) : list (str * Z) := c.

(** [c[w]]: a missing key counts 0. *)
Fixpoint get (c : Counter) (w : str) : Z :=
  match c with
  | [] => 0
  | (k, v) :: r => if str_eqb k w then v else get r w
  end.

(** [c[w] += 1]: a new key goes to the end. *)
Fixpoint incr (w : str) (c : Counter) : Counter :=
  match c with
  | [] => [(w, 1)]
  | (k, v) :: r => if str_eqb k w then (k, v + 1) :: r else (k, v) :: incr w r
  end.

(** [c.update(words)], and [Counter(words)] from the empty counter. *)
Definition update (c : Counter) (words : list str) : Counter :=
  fold_left (fun c w => incr w c) words c.

Definition Counter_of (words : list str) : Counter := update [] words.

(** [c.most_common(n)] for an int [n]: [heapq.nlargest(n, c.items(),
    key=itemgetter(1))], the first [n] items of the stable descending sort
    by count, and nothing when [n <= 0]. *)
Definition most_common (n : Z) (c : Counter) : list (str * Z) :=
  if n <=? 0 then []
  else firstn (Z.to_nat n) (sorted_reverse Z.ltb snd (items c)).

End Py.

Import Py.

Declare Scope py_scope.
Notation "x <- m ;; k" := (bind m (fun x => k))
  (at level 61, m at next level, right associativity) : py_scope.
Local Open Scope py_scope.

(** ** The program *)

(** *** [analyze_text] (lines 45-67) *)

(** The dict [analyze_text] returns, one field per key. *)
Record analysis := {
  Total_Words : Z;
  Total_Characters : Z;
  Total_Sentences : Z;
  Single_Word_Repeated : Z;
  Double_Word_Repeated : Z;
  Triple_Word_Repeated : Z
}.

(** The pattern [[.!?]]. *)
Definition sentence_end (c : ascii) : bool :=
  (ord c =? 46)%N || (ord c =? 33)%N || (ord c =? 63)%N.

(** [sum(1 for count in word_freq.values() if count == k)]. *)
Definition count_with (k : Z) (word_freq : Counter) : Z :=
  sum (map (fun _ => 1) (filter (fun count => count =? k) (values word_freq))).

(** [words] of [analyze_text]. *)
Definition analyze_words (text : str) : list str := map lower (split text).

Definition analyze_text (text : str) : analysis :=
  let char_count := len text in
  let words := analyze_words text in
  let word_count := len words in
  let sentences := re_split (fun _ c => sentence_end c) text in
  let sentences :=
    map strip (filter (fun s => negb (str_eqb (strip s) [])) sentences) in
  let sentence_count := len sentences in
  let word_freq := Counter_of words in
  let single_word_repeated := count_with 2 word_freq in
  let double_word_repeated := count_with 3 word_freq in
  let triple_word_repeated := count_with 4 word_freq in
  {| Total_Words := word_count;
     Total_Characters := char_count;
     Total_Sentences := sentence_count;
     Single_Word_Repeated := single_word_repeated;
     Double_Word_Repeated := double_word_repeated;
     Triple_Word_Repeated := triple_word_repeated |}.

(** *** [split_into_sentences] (lines 109-112) *)

(** The pattern [(?<!\w\.\w.)(?<![A-Z][a-z]\.)(?<=\.|\?|\!)\s] at a
    character [c] with [before] to its left, nearest character first.  The
    dot of the first look-behind is any character but a newline. *)
Definition sentence_boundary (before : str) (c : ascii) : bool :=
  negb match before with
       | c4 :: c3 :: c2 :: c1 :: _ =>
           is_word c1 && (ord c2 =? 46)%N && is_word c3
           && negb (ord c4 =? 10)%N
       | _ => false
       end
  && negb match before with
          | c3 :: c2 :: c1 :: _ => is_AZ c1 && is_az c2 && (ord c3 =? 46)%N
          | _ => false
          end
  && match before with
     | c1 :: _ => sentence_end c1
     | [] => false
     end
  && isspace c.

Definition split_into_sentences (text : str) : list str :=
  let sentences := re_split sentence_boundary text in
  map strip (filter (fun s => negb (str_eqb (strip s) [])) sentences).

(** *** [fallback_summarize] (lines 114-147) *)

(** The pattern [[^\w\s]]. *)
Definition punctuation (c : ascii) : bool := negb (is_word c || isspace c).

(** Lines 122-125. *)
Definition process_sentences (sentences : list str) : list str :=
  map (fun s => re_sub_empty punctuation (lower s)) sentences.

(** Lines 128-131. *)
Definition word_frequency (processed_sentences : list str) : Counter :=
  fold_left (fun word_freq sentence => update word_freq (split sentence))
    processed_sentences [].

(** Lines 136-138, the score of one sentence. *)
Definition sentence_score (word_freq : Counter) (sentence : str)
    : result number :=
  let score := sum (map (get word_freq) (split sentence)) in
  if len (split sentence) >? 0
  then score <- truediv score (len (split sentence)) ;; Ok (PyFloat score)
  else Ok (PyInt score).

(** Lines 134-139. *)
Definition score_sentences (word_freq : Counter)
    (processed_sentences : list str) : result (list (nat * number)) :=
  mapM (fun '(i, sentence) =>
          score <- sentence_score word_freq sentence ;; Ok (i, score))
       (enumerate processed_sentences).

(** Lines 142-143. *)
Definition top_sentences (num_sentences : Z)
    (sentence_scores : list (nat * number)) : list (nat * number) :=
  let top := slice_to num_sentences (sorted_reverse number_lt snd sentence_scores) in
  sorted Nat.ltb fst top.

Definition fallback_summarize (text : str) (num_sentences : Z) : result str :=
  let sentences := split_into_sentences text in
  if len sentences <=? num_sentences
  then Ok (join (lit " ") sentences)
  else
    let processed_sentences := process_sentences sentences in
    let word_freq := word_frequency processed_sentences in
    sentence_scores <- score_sentences word_freq processed_sentences ;;
    let top_sentences := top_sentences num_sentences sentence_scores in
    picked <- mapM (fun '(i, _) => getitem sentences i) top_sentences ;;
    Ok (join (lit " ") picked).

(** *** [summarize_text] (lines 149-157) *)

(** [lsa] is what the [try] block (the [sumy] parser and LSA summarizer, a
    library outside the repository) comes to: the sentences of the summary
    as strings, or an exception. *)
Definition summarize_text (lsa : result (list str)) (text : str)
    (num_sentences : Z) : result str :=
  match lsa with
  | Ok summary => Ok (join (lit " ") summary)
  | Raise _ => fallback_summarize text num_sentences
  end.

(** Modelled from the spec: the primary strategy of section 4.3, which
    [summarize_text] takes from the [sumy] library (lines 152-154); the
    library is no part of the repository.  The strategy "applies a
    rank-reducing decomposition to produce per-sentence importance scores;
    selects the N highest-scoring sentences and emits them in original
    document order", and "if the decomposition fails for any reason" the
    failure reaches the caller, who falls back.  [sentences] are the
    sentences of the document the strategy works on, and [decomposition] is
    what the decomposition comes to: the score of the sentence at every
    position, or the failure.  The selection is the one of lines 142-143. *)
Definition lsa_summarizer (sentences : list str)
    (decomposition : result (nat -> float)) (num_sentences : Z)
    : result (list str) :=
  match decomposition with
  | Raise e => Raise e
  | Ok score =>
      let sentence_scores :=
        map (fun i => (i, PyFloat (score i))) (seq 0 (length sentences)) in
      let summary := top_sentences num_sentences sentence_scores in
      Ok (map (fun '(i, _) => nth i sentences []) summary)
  end.

(** *** [extract_topics] (lines 160-186) *)

Definition stop_words : list str :=
  map lit
    ["the"; "and"; "is"; "in"; "of"; "for"; "a"; "an"; "to"; "with";
     "on"; "at"; "by"; "from"; "as"; "are"; "be"; "this"; "that"; "it";
     "they"; "we"; "you"; "he"; "she"; "them"; "his"; "her"; "its"; "their";
     "our"; "your"; "my"; "mine"; "yours"; "ours"; "theirs"; "him"; "hers";
     "us"; "me"; "i"; "have"; "has"; "had"; "do"; "does"; "did"; "can";
     "could"; "may"; "might"; "must"; "will"; "would"; "should"; "am";
     "are"; "was"; "were"; "been"; "being"; "get"; "gets"; "got"; "getting"]%string.

(** [word in stop_words]. *)
Definition is_stop_word (word : str) : bool :=
  existsb (str_eqb word) stop_words.

(** The condition of the dict comprehension, lines 180-181. *)
Definition qualifies (word : str) : bool :=
  negb (is_stop_word word) && (len word >? 2).

(** [words] of [extract_topics], lines 163-164. *)
Definition topic_words (text : str) : list str :=
  let processed_text := re_sub_empty punctuation (lower text) in
  split processed_text.

Definition extract_topics (text : str) (num_topics : Z) : list str :=
  let words := topic_words text in
  let word_freq := Counter_of words in
  let filtered_word_freq : Counter :=
    filter (fun '(word, freq) => qualifies word) (items word_freq) in
  let top_topics := most_common num_topics filtered_word_freq in
  map fst top_topics.

(** *** [extract_text_from_pdf] (lines 96-106) *)

(** [pages] is what the PyMuPDF library, which is no part of the
    repository, gives for the uploaded file: the text of every page in
    order, or an exception.  The message [st.error] shows is left out. *)
Definition extract_text_from_pdf (pages : result (list str)) : str :=
  match pages with
  | Ok pages =>
      let text :=
        fold_left (fun text page => text ++ page ++ ["010"%char]) pages [] in
      strip text
  | Raise _ => []
  end.

(** *** The handler of "Process PDF" (lines 703-718) *)

(** What the handler puts in the session state before it shows the
    results. *)
Record pdf_results := {
  pdf_text : str;
  summary_output : result str;
  extracted_topics : list str
}.

(** [pages] is the outcome of the PDF library and [lsa] the outcome of the
    [try] block of [summarize_text] on the extracted text.  [None] is the
    branch that shows "Could not extract text" and stays on the page. *)
Definition process_pdf (pages : result (list str)) (lsa : result (list str))
    (num_sentences num_topics : Z) : option pdf_results :=
  let extracted_text := extract_text_from_pdf pages in
  if negb (str_eqb extracted_text [])
  then Some {| pdf_text := extracted_text;
               summary_output :=
                 summarize_text lsa extracted_text num_sentences;
               extracted_topics := extract_topics extracted_text num_topics |}
  else None.

(** *** [detect_language] and [translate_text] (lines 70-93) *)

(** [d.get(key, default)] on a dict given by its items. *)
Fixpoint dict_get (d : list (str * str)) (key default : str) : str :=
  match d with
  | [] => default
  | (k, v) :: r => if str_eqb k key then v else dict_get r key default
  end.

Definition lang_map : list (str * str) :=
  map (fun '(code, name) => (lit code, lit name))
    [("en", "English"); ("ta", "Tamil"); ("hi", "Hindi"); ("te", "Telugu");
     ("fr", "French"); ("es", "Spanish"); ("de", "German"); ("it", "Italian");
     ("ja", "Japanese"); ("ko", "Korean"); ("zh-cn", "Chinese");
     ("ru", "Russian"); ("ar", "Arabic"); ("pt", "Portuguese")]%string.

(** [detect] is what [langdetect.detect(text)], a library outside the
    repository, comes to: a language code or an exception. *)
Definition detect_language (detect : result str) : str :=
  match detect with
  | Ok lang_code =>
      dict_get lang_map lang_code (lit "Other (" ++ lang_code ++ lit ")")
  | Raise _ => lit "Could not detect"
  end.

Definition languages : list (str * str) :=
  map (fun '(name, code) => (lit name, lit code))
    [("Tamil", "ta"); ("English", "en"); ("Hindi", "hi"); ("Telugu", "te");
     ("French", "fr"); ("Spanish", "es"); ("German", "de"); ("Italian", "it");
     ("Japanese", "ja"); ("Korean", "ko"); ("Chinese", "zh-cn");
     ("Russian", "ru"); ("Arabic", "ar"); ("Portuguese", "pt")]%string.

(** Line 91, the code [translate_text] hands to the translator. *)
Definition target_code (target_lang : str) : str :=
  dict_get languages target_lang (lit "en").

(** [translate] is [Translator().translate(text, dest=code).text] of the
    googletrans library. *)
Definition translate_text (translate : str -> str -> result str)
    (text target_lang : str) : result str :=
  translate text (target_code target_lang).

(** The names the language page offers (lines 622-626). *)
Definition offered_languages : list str :=
  map lit
    ["English"; "Tamil"; "Hindi"; "Telugu"; "French"; "Spanish";
     "German"; "Italian"; "Japanese"; "Korean"; "Chinese"; "Russian";
     "Arabic"; "Portuguese"]%string.

(** *** [signup] and [login] (lines 21-42) *)

(** The table [users] of the database: its rows (email, password), in the
    order of insertion, with [email] the primary key. *)
Definition users := list (str * str).

(** [SELECT * FROM users WHERE email=?] and [fetchone()]. *)
Definition select_email (table : users) (email : str) : option (str * str) :=
  find (fun row => str_eqb (fst row) email) table.

(** [SELECT * FROM users WHERE email=? AND password=?] and [fetchone()]. *)
Definition select_email_password (table : users) (email password : str)
    : option (str * str) :=
  find (fun row => str_eqb (fst row) email && str_eqb (snd row) password) table.

(** [INSERT INTO users (email, password) VALUES (?, ?)]: sqlite raises
    [IntegrityError], here [None], when the primary key is taken. *)
Definition insert_user (table : users) (email password : str) : option users :=
  match select_email table email with
  | Some _ => None
  | None => Some (table ++ [(email, password)])
  end.

Section Accounts.

(** [hash_password] (lines 28-29): the SHA-256 hex digest of [hashlib], a
    library outside the repository. *)
Variable hash_password : str -> str.

(** The result and the table afterwards; [None] for an exception. *)
Definition signup (table : users) (email password : str)
    : option (bool * users) :=
  match select_email table email with
  | Some _ => Some (false, table)
  | None =>
      match insert_user table email (hash_password password) with
      | Some table' => Some (true, table')
      | None => None
      end
  end.

Definition login (table : users) (email password : str) : bool :=
  match select_email_password table email (hash_password password) with
  | Some _ => true
  | None => false
  end.

(** The table after a series of signups, each with its email and password. *)
Definition signups (table : users) (requests : list (str * str)) : users :=
  fold_left
    (fun table '(email, password) =>
       match signup table email password with
       | Some (_, table') => table'
       | None => table
       end)
    requests table.

End Accounts.

(** *** The pages (lines 189-224 and 408-1011) *)

(** The table of the database and, of the session state, the two fields
    that decide which page is shown. *)
Record state := {
  table : users;
  authenticated : bool;
  page : str
}.

(** Lines 200-203: a new session. *)
Definition start (users_table : users) : state :=
  {| table := users_table; authenticated := false; page := lit "login" |}.

(** [set_page] and [go_back] (lines 194-197 and 222-224). *)
Definition set_page (s : state) (page_name : string) : state :=
  {| table := table s; authenticated := authenticated s;
     page := lit page_name |}.

(** [go_home] (lines 189-192). *)
Definition go_home (s : state) : state := set_page s "options".

(** [st.session_state.authenticated = False] and [set_page("login")]. *)
Definition log_out (s : state) : state :=
  {| table := table s; authenticated := false; page := lit "login" |}.

(** The condition of the page dispatch under which a page and its buttons
    are shown: the login page asks for the page name only, every other page
    for an authenticated session too. *)
Definition shown (s : state) (name : string) : bool :=
  if String.eqb name "login" then str_eqb (page s) (lit "login")
  else authenticated s && str_eqb (page s) (lit name).

(** The buttons, with what their handlers read: the text fields, and for the
    calls of libraries whether they gave a result. *)
Inductive click :=
| Create_Account (email password : str)
| Sign_In (email password : str)
| Open_Text_Analysis
| Open_Translation
| Open_PDF_Processor
| Profile
| About
| Logout
| Clear_Text
| Analyze_Text (text_input : str)
| Detect_Language (translate_input : str)
| Translate_Now (translated : bool)
| Process_PDF (extracted_text : str)
| Download
| Update_Password
| Delete_My_Account (confirm_delete : str)
| Back
| Home.

Section Pages.

Variable hash_password : str -> str.

(** One run of the script on a click.  A button of a page that is not shown
    cannot be clicked: such a click changes nothing. *)
Definition handle (s : state) (c : click) : state :=
  match c with
  | Create_Account email password =>
      if shown s "login" then
        match signup hash_password (table s) email password with
        | Some (_, table') =>
            {| table := table'; authenticated := authenticated s;
               page := page s |}
        | None => s
        end
      else s
  | Sign_In email password =>
      if shown s "login" && login hash_password (table s) email password
      then set_page {| table := table s; authenticated := true;
                       page := page s |} "options"
      else s
  | Open_Text_Analysis =>
      if shown s "options" then set_page s "text_analysis_input" else s
  | Open_Translation =>
      if shown s "options" then set_page s "translation_input" else s
  | Open_PDF_Processor =>
      if shown s "options" then set_page s "pdf_upload" else s
  | Profile => if shown s "options" then set_page s "user_profile" else s
  | About => if shown s "options" then set_page s "about" else s
  | Logout =>
      if shown s "options" || shown s "user_profile" then log_out s else s
  | Clear_Text => s
  | Analyze_Text text_input =>
      if shown s "text_analysis_input"
         && negb (str_eqb (strip text_input) [])
      then set_page s "text_analysis_results" else s
  | Detect_Language translate_input =>
      if shown s "translation_input"
         && negb (str_eqb (strip translate_input) [])
      then set_page s "translation_select" else s
  | Translate_Now translated =>
      if shown s "translation_select" && translated
      then set_page s "translation_results" else s
  | Process_PDF extracted_text =>
      if shown s "pdf_upload" && negb (str_eqb extracted_text [])
      then set_page s "pdf_results" else s
  | Download => s
  | Update_Password => s
  | Delete_My_Account confirm_delete =>
      if shown s "user_profile" && str_eqb confirm_delete (lit "DELETE")
      then log_out s else s
  | Back =>
      if shown s "text_analysis_input" then set_page s "options"
      else if shown s "text_analysis_results"
      then set_page s "text_analysis_input"
      else if shown s "translation_input" then set_page s "options"
      else if shown s "translation_select"
      then set_page s "translation_input"
      else if shown s "translation_results"
      then set_page s "translation_select"
      else if shown s "pdf_upload" then set_page s "options"
      else if shown s "pdf_results" then set_page s "pdf_upload"
      else if shown s "user_profile" then set_page s "options"
      else if shown s "about" then set_page s "options"
      else s
  | Home =>
      if shown s "text_analysis_input" || shown s "text_analysis_results"
         || shown s "translation_input" || shown s "translation_select"
         || shown s "translation_results" || shown s "pdf_upload"
         || shown s "pdf_results" || shown s "about"
      then go_home s else s
  end.

(** The state after a series of clicks. *)
Definition clicks (s : state) (l : list click) : state := fold_left handle l s.

End Pages.

(** The pages behind the login. *)
Definition inner_pages : list str :=
  map lit
    ["options"; "text_analysis_input"; "text_analysis_results";
     "translation_input"; "translation_select"; "translation_results";
     "pdf_upload"; "pdf_results"; "user_profile"; "about"]%string.

(** The session is on the login page and not authenticated, or on a page
    behind the login and authenticated. *)
Definition consistent (s : state) : bool :=
  if authenticated s then existsb (str_eqb (page s)) inner_pages
  else str_eqb (page s) (lit "login").

(** ** Notions of the specification *)

(** The normalized tokens of all the sentences, in order. *)
Definition all_tokens (processed_sentences : list str) : list str :=
  concat (map split processed_sentences).

(** The number of times a token occurs among all the sentences. *)
Definition global_frequency (processed_sentences : list str) (word : str) : Z :=
  Z.of_nat (count_occ str_eq_dec (all_tokens processed_sentences) word).

(** The score of a sentence as the specification words it: the sum of the
    global frequencies of its tokens over the number of its tokens, and the
    plain sum, the int 0, for a sentence without tokens. *)
Definition mean_frequency (processed_sentences : list str) (sentence : str)
    : number :=
  let tokens := split sentence in
  match tokens with
  | [] => PyInt 0
  | _ =>
      PyFloat (PrimFloat.div
                 (float_of_int (sum (map (global_frequency processed_sentences) tokens)))
                 (float_of_int (len tokens)))
  end.

(** A selection of sentences at increasing positions of [sentences]. *)
Definition in_document_order (sentences selected : list str) : Prop :=
  exists positions : list nat,
    StronglySorted lt positions
    /\ Forall (fun i => (i < length sentences)%nat) positions
    /\ selected = map (fun i => nth i sentences []) positions.

(** The number of sentences [fallback_summarize] puts in the summary of a
    text of [count] sentences: all of them when there are at most
    [num_sentences], else what the slice [[:num_sentences]] keeps. *)
Definition summary_size (count num_sentences : Z) : Z :=
  if count <=? num_sentences then count
  else if 0 <=? num_sentences then num_sentences
  else Z.max 0 (count + num_sentences).

(** The distinct tokens of the document that are no stop-words and longer
    than two characters. *)
Definition qualifying_tokens (text : str) : list str :=
  nodup str_eq_dec (filter qualifies (topic_words text)).

(** The table [extract_topics] ranks: its keys are the qualifying words. *)
Definition filtered_word_freq (text : str) : Counter :=
  filter (fun '(word, freq) => qualifies word)
    (items (Counter_of (topic_words text))).

(** A text of whitespace only; the empty text is one. *)
Definition whitespace_only (text : str) : Prop :=
  Forall (fun c => isspace c = true) text.

(** The distinct words that occur exactly [k] times. *)
Definition occurring (k : Z) (words : list str) : list str :=
  filter (fun w => Z.of_nat (count_occ str_eq_dec words w) =? k)
    (nodup str_eq_dec words).

(** The texts of the two scenarios. *)
Definition cat_text : str :=
  lit "The cat sat. The cat ran. The dog slept. The cat sat again today.".

Definition hello_text : str :=
  lit "Hello world. Hello again! Goodbye world.".

(** A string that neither starts nor ends with whitespace. *)
Definition trimmed (s : str) : Prop :=
  (forall c r, s = c :: r -> isspace c = false)
  /\ (forall c r, s = r ++ [c] -> isspace c = false).

(** The number of times a word occurs among the words of the normalized
    text. *)
Definition frequency (text word : str) : Z :=
  Z.of_nat (count_occ str_eq_dec (topic_words text) word).

(** [a] comes before [b] in the list. *)
Definition precedes {A} (a b : A) (l : list A) : Prop :=
  exists l1 l2 l3, l = l1 ++ a :: l2 ++ b :: l3.

(** [a] is seen before [b] is: it occurs at a place with no [b] before it. *)
Definition seen_before {A} (a b : A) (l : list A) : Prop :=
  exists l1 l2, l = l1 ++ a :: l2 /\ ~ In b l1.

(** ** Facts about the Python layer *)

(** *** Counters *)

Lemma str_eqb_eq (a b : str) : str_eqb a b = true <-> a = b.
Proof.
  unfold str_eqb. destruct (str_eq_dec a b); split; congruence.
Qed.

Lemma str_eqb_refl (a : str) : str_eqb a a = true.
Proof. now apply str_eqb_eq. Qed.

Lemma str_eqb_neq (a b : str) : a <> b -> str_eqb a b = false.
Proof.
  unfold str_eqb. destruct (str_eq_dec a b); congruence.
Qed.

Ltac case_str a b :=
  let E := fresh "E" in
  destruct (str_eq_dec a b) as [E | E];
  [ try subst; rewrite ?str_eqb_refl in *
  | rewrite ?(str_eqb_neq a b E) in * ].

Lemma get_incr (w : str) (c : Counter) (w' : str) :
  get (incr w c) w' = get c w' + (if str_eqb w w' then 1 else 0).
Proof.
  induction c as [ | [k v] r IH]; simpl.
  - destruct (str_eqb w w'); reflexivity.
  - case_str k w; simpl.
    + destruct (str_eqb w w'); lia.
    + case_str k w'.
      * rewrite (str_eqb_neq w w') by congruence. lia.
      * exact IH.
Qed.

Lemma get_update (ws : list str) (c : Counter) (w : str) :
  get (update c ws) w = get c w + Z.of_nat (count_occ str_eq_dec ws w).
Proof.
  revert c. induction ws as [ | a ws IH]; intro c; simpl.
  - unfold update. simpl. lia.
  - change (update c (a :: ws)) with (update (incr a c) ws).
    rewrite IH, get_incr. unfold str_eqb.
    destruct (str_eq_dec a w); lia.
Qed.

Lemma In_keys_incr (w : str) (c : Counter) (x : str) :
  In x (keys (incr w c)) <-> In x (keys c) \/ x = w.
Proof.
  induction c as [ | [k v] r IH]; simpl.
  - intuition congruence.
  - case_str k w; simpl.
    + intuition congruence.
    + rewrite IH. tauto.
Qed.

Lemma NoDup_keys_incr (w : str) (c : Counter) :
  NoDup (keys c) -> NoDup (keys (incr w c)).
Proof.
  induction c as [ | [k v] r IH]; simpl; intro H.
  - constructor; [ intros [] | constructor ].
  - inversion H as [ | ? ? Hk Hr]; subst.
    case_str k w; simpl.
    + constructor; assumption.
    + constructor; [ | now apply IH ].
      change (~ In k (keys (incr w r))).
      rewrite In_keys_incr. intros [ ? | ? ]; [ now apply Hk | congruence ].
Qed.

Lemma In_keys_update (ws : list str) (c : Counter) (x : str) :
  In x (keys (update c ws)) <-> In x (keys c) \/ In x ws.
Proof.
  revert c. induction ws as [ | a ws IH]; intro c.
  - unfold update; simpl. tauto.
  - change (update c (a :: ws)) with (update (incr a c) ws).
    rewrite IH, In_keys_incr. simpl. intuition congruence.
Qed.

Lemma NoDup_keys_update (ws : list str) (c : Counter) :
  NoDup (keys c) -> NoDup (keys (update c ws)).
Proof.
  revert c. induction ws as [ | a ws IH]; intros c H.
  - exact H.
  - change (update c (a :: ws)) with (update (incr a c) ws).
    now apply IH, NoDup_keys_incr.
Qed.

(** The keys of [Counter(words)] are the words, each once, and every count
    is the number of occurrences. *)
Lemma NoDup_keys_Counter_of (ws : list str) : NoDup (keys (Counter_of ws)).
Proof. apply NoDup_keys_update. constructor. Qed.

Lemma In_keys_Counter_of (ws : list str) (x : str) :
  In x (keys (Counter_of ws)) <-> In x ws.
Proof. unfold Counter_of. rewrite In_keys_update. simpl. tauto. Qed.

Lemma get_Counter_of (ws : list str) (w : str) :
  get (Counter_of ws) w = Z.of_nat (count_occ str_eq_dec ws w).
Proof. unfold Counter_of. rewrite get_update. reflexivity. Qed.

(** Two duplicate-free lists with the same elements are equally long. *)
Lemma NoDup_same_length {A} (l l' : list A) :
  NoDup l -> NoDup l' -> (forall x, In x l <-> In x l') ->
  length l = length l'.
Proof.
  intros H H' Hin. apply Permutation_length.
  now apply NoDup_Permutation.
Qed.

(** Filtering the items of a counter on the key alone. *)
Lemma keys_filter_items (f : str -> bool) (c : Counter) :
  keys (filter (fun '(word, freq) => f word) c) = filter f (keys c).
Proof.
  induction c as [ | [k v] r IH]; simpl.
  - reflexivity.
  - destruct (f k); simpl; now rewrite IH.
Qed.

(** Filtering the values of a counter is filtering its keys on their count. *)
Lemma filter_values_keys (f : Z -> bool) (c : Counter) :
  NoDup (keys c) ->
  length (filter f (values c))
  = length (filter (fun w => f (get c w)) (keys c)).
Proof.
  induction c as [ | [k v] r IH]; simpl; intro H.
  - reflexivity.
  - inversion H as [ | ? ? Hk Hr]; subst.
    rewrite str_eqb_refl.
    assert (E : filter (fun w => f (if str_eqb k w then v else get r w)) (keys r)
                = filter (fun w => f (get r w)) (keys r)).
    { apply filter_ext_in. intros w Hw.
      rewrite str_eqb_neq; [ reflexivity | ].
      intro; subst; now apply Hk. }
    unfold keys in *. rewrite E.
    destruct (f v); simpl; now rewrite <- IH.
Qed.

Lemma sum_ones {A} (l : list A) : sum (map (fun _ => 1) l) = Z.of_nat (length l).
Proof.
  unfold sum.
  assert (G : forall acc, fold_left Z.add (map (fun _ : A => 1) l) acc
                          = acc + Z.of_nat (length l)).
  { induction l as [ | a l IH]; intro acc; simpl length; simpl fold_left.
    - simpl. lia.
    - rewrite IH. lia. }
  rewrite G. lia.
Qed.

(** *** Sorting and slicing *)

Section SortedFacts.
Context {A : Type} (before : A -> A -> bool).

Lemma Permutation_insert (x : A) (l : list A) :
  Permutation (insert before x l) (x :: l).
Proof.
  induction l as [ | y r IH]; simpl.
  - apply Permutation_refl.
  - destruct (before y x).
    + eapply Permutation_trans; [ apply perm_skip, IH | apply perm_swap ].
    + apply Permutation_refl.
Qed.

Lemma Permutation_sorted_by (l : list A) : Permutation (sorted_by before l) l.
Proof.
  induction l as [ | x r IH]; simpl.
  - constructor.
  - eapply Permutation_trans; [ apply Permutation_insert | now apply perm_skip ].
Qed.

End SortedFacts.

(** Sorting on a key in [nat] puts the keys in non-decreasing order. *)
Lemma insert_ascending {A} (key : A -> nat) (x : A) (l : list A) :
  StronglySorted le (map key l) ->
  StronglySorted le (map key (insert (fun y x => key y <? key x)%nat x l)).
Proof.
  induction l as [ | y r IH]; simpl; intro H.
  - repeat constructor.
  - apply StronglySorted_inv in H. destruct H as [Hr Hy].
    destruct (Nat.ltb_spec (key y) (key x)) as [Hlt | Hge]; simpl.
    + constructor; [ now apply IH | ].
      rewrite Forall_forall in *. intros k Hk.
      apply (Permutation_in _ (Permutation_map key (Permutation_insert _ x r))) in Hk.
      destruct Hk as [ <- | Hk ]; [ lia | now apply Hy ].
    + constructor; [ now constructor | ].
      constructor; [ exact Hge | ].
      rewrite Forall_forall in *. intros k Hk. specialize (Hy k Hk). lia.
Qed.

Lemma sorted_ascending {A} (key : A -> nat) (l : list A) :
  StronglySorted le (map key (sorted Nat.ltb key l)).
Proof.
  unfold sorted. induction l as [ | x r IH]; simpl.
  - constructor.
  - now apply insert_ascending.
Qed.

(** Non-decreasing and duplicate-free is increasing. *)
Lemma StronglySorted_le_NoDup (l : list nat) :
  StronglySorted le l -> NoDup l -> StronglySorted lt l.
Proof.
  induction l as [ | x r IH]; intros Hs Hn.
  - constructor.
  - apply StronglySorted_inv in Hs. destruct Hs as [Hr Hx].
    inversion Hn as [ | ? ? Hnx Hnr]; subst.
    constructor; [ now apply IH | ].
    rewrite Forall_forall in *. intros k Hk.
    specialize (Hx k Hk).
    assert (k <> x) by (intro; subst; contradiction). lia.
Qed.

Lemma In_firstn {A} (k : nat) (l : list A) (x : A) :
  In x (firstn k l) -> In x l.
Proof.
  intro H. rewrite <- (firstn_skipn k l). apply in_or_app. now left.
Qed.

Lemma incl_slice_to {A} (n : Z) (l : list A) : incl (slice_to n l) l.
Proof.
  unfold slice_to. intros x Hx.
  destruct (0 <=? n); eapply In_firstn; exact Hx.
Qed.

Lemma NoDup_map_slice_to {A B} (f : A -> B) (n : Z) (l : list A) :
  NoDup (map f l) -> NoDup (map f (slice_to n l)).
Proof.
  unfold slice_to. intro H.
  destruct (0 <=? n);
    match goal with
    | |- NoDup (map f (firstn ?k l)) =>
        rewrite <- (firstn_skipn k l), map_app in H;
        now apply NoDup_app_remove_r in H
    end.
Qed.

(** *** Exceptions *)

Lemma mapM_Ok {A B} (f : A -> result B) (g : A -> B) (l : list A) :
  (forall a, In a l -> f a = Ok (g a)) -> mapM f l = Ok (map g l).
Proof.
  induction l as [ | a r IH]; simpl; intro H.
  - reflexivity.
  - rewrite (H a) by now left. simpl.
    rewrite IH by (intros; apply H; now right). reflexivity.
Qed.

Lemma getitem_Ok {A} (l : list A) (i : nat) (d : A) :
  (i < length l)%nat -> getitem l i = Ok (nth i l d).
Proof.
  intro H. unfold getitem.
  now rewrite (nth_error_nth' l d H).
Qed.

Lemma map_fst_enumerate {A} (l : list A) :
  map fst (enumerate l) = seq 0 (length l).
Proof.
  unfold enumerate. generalize 0%nat.
  induction l as [ | a r IH]; intro s; simpl.
  - reflexivity.
  - now rewrite IH.
Qed.

(** ** The scoring step of [fallback_summarize] *)

Lemma update_app (c : Counter) (a b : list str) :
  update c (a ++ b) = update (update c a) b.
Proof. unfold update. apply fold_left_app. Qed.

Lemma word_frequency_all_tokens (processed_sentences : list str) :
  word_frequency processed_sentences
  = Counter_of (all_tokens processed_sentences).
Proof.
  unfold word_frequency, Counter_of, all_tokens.
  generalize (@nil (str * Z)) as c.
  induction processed_sentences as [ | s r IH]; intro c; simpl.
  - reflexivity.
  - now rewrite IH, update_app.
Qed.

Lemma get_word_frequency (processed_sentences : list str) (word : str) :
  get (word_frequency processed_sentences) word
  = global_frequency processed_sentences word.
Proof.
  rewrite word_frequency_all_tokens. apply get_Counter_of.
Qed.

Lemma sentence_score_mean (processed_sentences : list str) (sentence : str) :
  sentence_score (word_frequency processed_sentences) sentence
  = Ok (mean_frequency processed_sentences sentence).
Proof.
  unfold sentence_score, mean_frequency, truediv, len.
  rewrite (map_ext _ _ (get_word_frequency processed_sentences)).
  destruct (split sentence) as [ | w ws] eqn:E.
  - reflexivity.
  - replace (Z.of_nat (length (w :: ws)) >? 0) with true
      by (symmetry; apply Z.gtb_lt; simpl length; lia).
    replace (Z.of_nat (length (w :: ws)) =? 0) with false
      by (symmetry; apply Z.eqb_neq; simpl length; lia).
    reflexivity.
Qed.

Lemma score_sentences_mean (processed_sentences : list str) :
  score_sentences (word_frequency processed_sentences) processed_sentences
  = Ok (map (fun '(i, sentence) =>
               (i, mean_frequency processed_sentences sentence))
            (enumerate processed_sentences)).
Proof.
  unfold score_sentences. apply mapM_Ok.
  intros [i sentence] _. now rewrite sentence_score_mean.
Qed.

(** ** The selection step of [fallback_summarize] *)

Lemma len_slice_to {A} (n : Z) (l : list A) :
  len (slice_to n l)
  = if 0 <=? n then Z.min n (len l) else Z.max 0 (len l + n).
Proof.
  unfold slice_to, len. destruct (Z.leb_spec 0 n); rewrite length_firstn; lia.
Qed.

Lemma top_sentences_indices (n : Z) (sentence_scores : list (nat * number)) :
  NoDup (map fst sentence_scores) ->
  StronglySorted lt (map fst (top_sentences n sentence_scores))
  /\ incl (map fst (top_sentences n sentence_scores)) (map fst sentence_scores)
  /\ len (top_sentences n sentence_scores)
     = if 0 <=? n then Z.min n (len sentence_scores)
       else Z.max 0 (len sentence_scores + n).
Proof.
  intro Hnd. unfold top_sentences.
  set (ranked := sorted_reverse number_lt snd sentence_scores).
  assert (Hperm : Permutation ranked sentence_scores)
    by apply Permutation_sorted_by.
  assert (Hranked : Permutation (map fst ranked) (map fst sentence_scores))
    by now apply Permutation_map.
  set (top := slice_to n ranked).
  assert (Hsort : Permutation (sorted Nat.ltb fst top) top)
    by apply Permutation_sorted_by.
  assert (Htop : Permutation (map fst (sorted Nat.ltb fst top)) (map fst top))
    by now apply Permutation_map.
  split; [ | split ].
  - apply StronglySorted_le_NoDup; [ apply sorted_ascending | ].
    apply (Permutation_NoDup (Permutation_sym Htop)).
    apply NoDup_map_slice_to.
    apply (Permutation_NoDup (Permutation_sym Hranked)), Hnd.
  - intros i Hi.
    apply (Permutation_in _ Htop) in Hi.
    apply (Permutation_in _ Hranked).
    apply in_map_iff in Hi. destruct Hi as [p [<- Hp]].
    apply in_map. now apply (incl_slice_to n ranked).
  - unfold len at 1. rewrite (Permutation_length Hsort).
    fold (len top). unfold top. rewrite len_slice_to.
    unfold len. now rewrite (Permutation_length Hperm).
Qed.

Lemma in_document_order_all (sentences : list str) :
  in_document_order sentences sentences.
Proof.
  exists (seq 0 (length sentences)). split; [ | split ].
  - generalize 0%nat. induction (length sentences) as [ | k IH]; intro s; simpl.
    + constructor.
    + constructor; [ apply IH | ].
      apply Forall_forall. intros i Hi. apply in_seq in Hi. lia.
  - apply Forall_forall. intros i Hi. apply in_seq in Hi. lia.
  - symmetry. apply (nth_ext _ _ [] []).
    + now rewrite length_map, length_seq.
    + intros i Hi. rewrite length_map, length_seq in Hi.
      rewrite (nth_indep _ [] (nth 0 sentences [])) by
        now rewrite length_map, length_seq.
      rewrite (map_nth (fun i => nth i sentences [])).
      now rewrite seq_nth.
Qed.

(** [fallback_summarize] returns, without raising, the join of a selection
    of the segmented sentences in document order. *)
Lemma fallback_summarize_selection (text : str) (num_sentences : Z) :
  exists selected,
    in_document_order (split_into_sentences text) selected
    /\ len selected = summary_size (len (split_into_sentences text)) num_sentences
    /\ fallback_summarize text num_sentences = Ok (join (lit " ") selected).
Proof.
  unfold fallback_summarize, summary_size.
  set (sentences := split_into_sentences text).
  destruct (Z.leb_spec (len sentences) num_sentences) as [Hle | Hgt].
  - exists sentences. split; [ apply in_document_order_all | now split ].
  - rewrite score_sentences_mean. cbn [bind].
    set (scores := map _ (enumerate (process_sentences sentences))).
    assert (Hfst : map fst scores = seq 0 (length sentences)).
    { unfold scores. rewrite map_map.
      rewrite (map_ext _ fst) by (now intros [i s]).
      rewrite map_fst_enumerate. unfold process_sentences.
      now rewrite length_map. }
    assert (Hlen : len scores = len sentences).
    { unfold len. rewrite <- (length_map fst scores), Hfst.
      now rewrite length_seq. }
    destruct (top_sentences_indices num_sentences scores)
      as [Hsorted [Hincl Hsize]].
    { rewrite Hfst. apply seq_NoDup. }
    set (top := top_sentences num_sentences scores) in *.
    assert (Hrange : Forall (fun i => (i < length sentences)%nat) (map fst top)).
    { apply Forall_forall. intros i Hi. apply Hincl in Hi.
      rewrite Hfst in Hi. apply in_seq in Hi. lia. }
    exists (map (fun i => nth i sentences []) (map fst top)).
    split; [ | split ].
    + exists (map fst top). now repeat split.
    + unfold len at 1. rewrite !length_map. fold (len top).
      rewrite Hsize, Hlen. destruct (0 <=? num_sentences); lia.
    + rewrite (mapM_Ok _ (fun p => nth (fst p) sentences [])).
      * cbn [bind]. now rewrite map_map.
      * intros [i x] Hp. apply getitem_Ok.
        rewrite Forall_forall in Hrange. apply Hrange.
        apply in_map_iff. now exists (i, x).
Qed.

(** ** Topic extraction *)

Lemma is_stop_word_In (word : str) :
  is_stop_word word = true <-> In word stop_words.
Proof.
  unfold is_stop_word. rewrite existsb_exists. split.
  - intros [x [Hx E]]. apply str_eqb_eq in E. now subst.
  - intro H. exists word. split; [ exact H | apply str_eqb_refl ].
Qed.

Lemma qualifies_iff (word : str) :
  qualifies word = true <-> ~ In word stop_words /\ 2 < len word.
Proof.
  unfold qualifies. rewrite andb_true_iff, negb_true_iff, Z.gtb_lt.
  rewrite <- is_stop_word_In. destruct (is_stop_word word); intuition congruence.
Qed.

Lemma extract_topics_eq (text : str) (num_topics : Z) :
  extract_topics text num_topics
  = map fst (most_common num_topics (filtered_word_freq text)).
Proof. reflexivity. Qed.

Lemma keys_filtered_word_freq (text : str) :
  keys (filtered_word_freq text)
  = filter qualifies (keys (Counter_of (topic_words text))).
Proof. apply keys_filter_items. Qed.

Lemma length_filtered_word_freq (text : str) :
  length (filtered_word_freq text) = length (qualifying_tokens text).
Proof.
  rewrite <- (length_map fst). change (map fst (filtered_word_freq text))
    with (keys (filtered_word_freq text)).
  rewrite keys_filtered_word_freq. apply NoDup_same_length.
  - apply NoDup_filter, NoDup_keys_Counter_of.
  - apply NoDup_nodup.
  - intro x. unfold qualifying_tokens.
    rewrite nodup_In, !filter_In, In_keys_Counter_of. tauto.
Qed.

Lemma length_most_common (n : Z) (c : Counter) :
  length (most_common n c) = Nat.min (Z.to_nat n) (length c).
Proof.
  unfold most_common. destruct (Z.leb_spec n 0).
  - replace (Z.to_nat n) with 0%nat by lia. reflexivity.
  - rewrite length_firstn. f_equal.
    apply Permutation_length, Permutation_sorted_by.
Qed.

Lemma length_extract_topics (text : str) (num_topics : Z) :
  length (extract_topics text num_topics)
  = Nat.min (Z.to_nat num_topics) (length (qualifying_tokens text)).
Proof.
  rewrite extract_topics_eq, length_map, length_most_common.
  now rewrite length_filtered_word_freq.
Qed.

Lemma In_most_common (n : Z) (c : Counter) (p : str * Z) :
  In p (most_common n c) -> In p c.
Proof.
  unfold most_common. destruct (n <=? 0); [ intros [] | ].
  intro H. apply In_firstn in H.
  now apply (Permutation_in _ (Permutation_sorted_by _ _)) in H.
Qed.

Lemma In_extract_topics (text : str) (num_topics : Z) (topic : str) :
  In topic (extract_topics text num_topics) ->
  In topic (topic_words text) /\ qualifies topic = true.
Proof.
  rewrite extract_topics_eq. intro H.
  apply in_map_iff in H. destruct H as [[w v] [E H]]. simpl in E. subst w.
  apply In_most_common in H.
  assert (Hk : In topic (keys (filtered_word_freq text)))
    by (apply in_map_iff; now exists (topic, v)).
  rewrite keys_filtered_word_freq, filter_In, In_keys_Counter_of in Hk.
  exact Hk.
Qed.

(** C3.  For every document and every K >= 1, [extract_topics] returns at
    most K topics, and exactly K when the document has at least K distinct
    qualifying tokens (tokens that are no stop-words and longer than two
    characters). *)
Theorem topic_count_bound (text : str) (K : Z) :
  1 <= K ->
  len (extract_topics text K) <= K
  /\ (K <= len (qualifying_tokens text) -> len (extract_topics text K) = K).
Proof.
  intro HK. unfold len. rewrite length_extract_topics. split; lia.
Qed.

Lemma topic_count_bound_witness :
  1 <= 2
  /\ 2 <= len (qualifying_tokens cat_text)
  /\ len (extract_topics cat_text 2) <= 2
  /\ len (extract_topics cat_text 2) = 2.
Proof.
  assert (H1 : 1 <= 2) by lia.
  assert (H2 : 2 <= len (qualifying_tokens cat_text))
    by (apply Z.leb_le; vm_compute; reflexivity).
  destruct (topic_count_bound cat_text 2 H1) as [Hle Heq].
  exact (conj H1 (conj H2 (conj Hle (Heq H2)))).
Defined.

(** C4.  No topic [extract_topics] returns is a stop-word and every one is
    longer than two characters; a document whose normalized tokens are all
    stop-words or at most two characters long has no topics, whatever K. *)
Theorem topics_exclude_stop_words (text : str) (K : Z) :
  Forall (fun topic => ~ In topic stop_words /\ 2 < len topic)
    (extract_topics text K)
  /\ (Forall (fun word => In word stop_words \/ len word <= 2)
        (topic_words text) ->
      extract_topics text K = []).
Proof.
  split.
  - apply Forall_forall. intros topic H.
    apply In_extract_topics in H. now apply qualifies_iff.
  - intro Hall.
    destruct (extract_topics text K) as [ | topic r] eqn:E; [ reflexivity | ].
    exfalso.
    assert (H : In topic (extract_topics text K)) by (rewrite E; now left).
    apply In_extract_topics in H. destruct H as [Hin Hq].
    apply qualifies_iff in Hq.
    rewrite Forall_forall in Hall.
    destruct Hq as [Hstop Hlen], (Hall topic Hin) as [Hs | Hl];
      [ contradiction | lia ].
Qed.

Lemma not_qualifies (word : str) :
  qualifies word = false -> In word stop_words \/ len word <= 2.
Proof.
  unfold qualifies. rewrite andb_false_iff, negb_false_iff, is_stop_word_In.
  intros [H | H]; [ now left | right ].
  destruct (Z.gtb_spec (len word) 2); [ discriminate | lia ].
Qed.

Lemma topics_exclude_stop_words_witness :
  Forall (fun word => In word stop_words \/ len word <= 2)
    (topic_words (lit "It is the. To be, or... a I of an ox!"))
  /\ extract_topics (lit "It is the. To be, or... a I of an ox!") 3 = [].
Proof.
  assert (H : Forall (fun word => In word stop_words \/ len word <= 2)
                (topic_words (lit "It is the. To be, or... a I of an ox!"))).
  { apply Forall_forall. intros word Hw. apply not_qualifies.
    apply negb_true_iff. revert word Hw. apply forallb_forall.
    vm_compute. reflexivity. }
  split; [ exact H | ].
  exact (proj2 (topics_exclude_stop_words _ 3) H).
Defined.

Example topics_scenario_words :
  Counter_of (topic_words cat_text)
  = [(lit "the", 4); (lit "cat", 3); (lit "sat", 2); (lit "ran", 1);
     (lit "dog", 1); (lit "slept", 1); (lit "again", 1); (lit "today", 1)].
Proof. vm_compute. reflexivity. Qed.

(** C8.  On the scenario text the two topics are "cat" (three times) and
    "sat" (twice), in that order. *)
Theorem topics_scenario :
  extract_topics cat_text 2 = [lit "cat"; lit "sat"]
  /\ get (Counter_of (topic_words cat_text)) (lit "cat") = 3
  /\ get (Counter_of (topic_words cat_text)) (lit "sat") = 2.
Proof. vm_compute. repeat split. Qed.

(** ** Text statistics *)

(** C9.  On the scenario text [analyze_text] finds six words, three
    sentences, two words that occur exactly twice, and none that occur
    three or four times. *)
Theorem analyze_scenario :
  Total_Words (analyze_text hello_text) = 6
  /\ Total_Sentences (analyze_text hello_text) = 3
  /\ Single_Word_Repeated (analyze_text hello_text) = 2
  /\ Double_Word_Repeated (analyze_text hello_text) = 0
  /\ Triple_Word_Repeated (analyze_text hello_text) = 0.
Proof. vm_compute. repeat split. Qed.

(** ** Summaries *)

(** C2.  When the segmenter yields at most N sentences, [fallback_summarize]
    returns all of them, in order, joined by single spaces; nothing is
    scored or selected. *)
Theorem small_input_all_sentences (text : str) (N : Z) :
  1 <= N ->
  len (split_into_sentences text) <= N ->
  fallback_summarize text N = Ok (join (lit " ") (split_into_sentences text)).
Proof.
  intros _ H. unfold fallback_summarize.
  apply Z.leb_le in H. now rewrite H.
Qed.

Lemma small_input_all_sentences_witness :
  1 <= 5
  /\ len (split_into_sentences cat_text) <= 5
  /\ fallback_summarize cat_text 5 = Ok cat_text.
Proof.
  assert (H1 : 1 <= 5) by lia.
  assert (H2 : len (split_into_sentences cat_text) <= 5)
    by (apply Z.leb_le; vm_compute; reflexivity).
  exact (conj H1 (conj H2 (small_input_all_sentences cat_text 5 H1 H2))).
Defined.

(** C5.  The scoring step gives every sentence the sum of the global
    frequencies of its tokens divided by the number of its tokens, divides
    only when there is a token, and gives a sentence without tokens the
    plain sum 0; so the division never has a zero divisor: neither the
    score of a sentence, whatever the table, nor [fallback_summarize] raises
    on any input. *)
Theorem scoring_never_divides_by_zero :
  (forall processed_sentences,
      score_sentences (word_frequency processed_sentences) processed_sentences
      = Ok (map (fun '(i, sentence) =>
                   (i, mean_frequency processed_sentences sentence))
              (enumerate processed_sentences)))
  /\ (forall word_freq sentence,
         sentence_score word_freq sentence
         = match split sentence with
           | [] => Ok (PyInt 0)
           | tokens =>
               Ok (PyFloat (PrimFloat.div
                              (float_of_int (sum (map (get word_freq) tokens)))
                              (float_of_int (len tokens))))
           end)
  /\ (forall text N, exists summary, fallback_summarize text N = Ok summary).
Proof.
  split; [ exact score_sentences_mean | split ].
  - intros word_freq sentence. unfold sentence_score, truediv, len.
    destruct (split sentence) as [ | w ws]; [ reflexivity | ].
    replace (Z.of_nat (length (w :: ws)) >? 0) with true
      by (symmetry; apply Z.gtb_lt; simpl length; lia).
    replace (Z.of_nat (length (w :: ws)) =? 0) with false
      by (symmetry; apply Z.eqb_neq; simpl length; lia).
    reflexivity.
  - intros text N.
    destruct (fallback_summarize_selection text N) as [selected [_ [_ E]]].
    now exists (join (lit " ") selected).
Qed.

(** Without the guard of line 137 the division would raise on a sentence of
    punctuation only. *)
Example unguarded_division_raises :
  process_sentences [lit "?!"] = [lit ""]
  /\ truediv (sum (map (get []) (split (lit ""))))
       (len (split (lit ""))) = Raise ZeroDivisionError.
Proof. split; reflexivity. Qed.

Lemma map_fst_scores {B} (f : nat -> B) (n : nat) :
  map fst (map (fun i => (i, f i)) (seq 0 n)) = seq 0 n.
Proof.
  rewrite map_map. cbn [fst]. apply map_id.
Qed.

(** The primary strategy returns sentences at increasing positions of the
    document it works on. *)
Lemma lsa_summarizer_selection (sentences : list str) (score : nat -> float)
    (num_sentences : Z) :
  exists selected,
    in_document_order sentences selected
    /\ lsa_summarizer sentences (Ok score) num_sentences = Ok selected.
Proof.
  unfold lsa_summarizer.
  set (scores := map (fun i => (i, PyFloat (score i)))
                   (seq 0 (length sentences))).
  assert (Hfst : map fst scores = seq 0 (length sentences))
    by apply map_fst_scores.
  destruct (top_sentences_indices num_sentences scores)
    as [Hsorted [Hincl _]].
  { rewrite Hfst. apply seq_NoDup. }
  set (top := top_sentences num_sentences scores) in *.
  exists (map (fun '(i, _) => nth i sentences []) top).
  split; [ | reflexivity ].
  exists (map fst top). split; [ exact Hsorted | split ].
  - apply Forall_forall. intros i Hi. apply Hincl in Hi.
    rewrite Hfst in Hi. apply in_seq in Hi. lia.
  - rewrite map_map. apply map_ext. now intros [i x].
Qed.

(** C1.  [fallback_summarize] and [summarize_text] return the join of
    sentences taken at increasing positions of the segmented input, so no
    selected sentence comes before one that precedes it in the document.
    For the fallback, called directly or after the primary strategy failed,
    the input is segmented by [split_into_sentences].  The primary strategy
    selects from the sentences of the document it is given, whatever its
    scores: those of the library's own tokenizer in the source, and those
    of [split_into_sentences] in particular. *)
Theorem summaries_in_document_order (sentences : list str)
    (decomposition : result (nat -> float)) (text : str) (N : Z) :
  (exists selected,
      in_document_order (split_into_sentences text) selected
      /\ fallback_summarize text N = Ok (join (lit " ") selected))
  /\ (exists selected,
         match decomposition with
         | Ok _ => in_document_order sentences selected
         | Raise _ => in_document_order (split_into_sentences text) selected
         end
         /\ summarize_text (lsa_summarizer sentences decomposition N) text N
            = Ok (join (lit " ") selected))
  /\ (exists selected,
         in_document_order (split_into_sentences text) selected
         /\ summarize_text
              (lsa_summarizer (split_into_sentences text) decomposition N)
              text N
            = Ok (join (lit " ") selected)).
Proof.
  assert (F : exists selected,
             in_document_order (split_into_sentences text) selected
             /\ fallback_summarize text N = Ok (join (lit " ") selected)).
  { destruct (fallback_summarize_selection text N) as [selected [H [_ E]]].
    now exists selected. }
  split; [ exact F | split ].
  - destruct decomposition as [score | e].
    + destruct (lsa_summarizer_selection sentences score N)
        as [selected [H E]].
      exists selected. split; [ exact H | ].
      rewrite E. reflexivity.
    + exact F.
  - destruct decomposition as [score | e].
    + destruct (lsa_summarizer_selection (split_into_sentences text) score N)
        as [selected [H E]].
      exists selected. split; [ exact H | ].
      rewrite E. reflexivity.
    + exact F.
Qed.

(** The primary strategy with the scores 1, 3, 2, 4 for the four sentences
    of the scenario keeps the second and the fourth, in that order. *)
Example lsa_summarizer_cat :
  summarize_text
    (lsa_summarizer (split_into_sentences cat_text)
       (Ok (fun i => nth i [1; 3; 2; 4]%float 0%float)) 2)
    cat_text 2
  = Ok (lit "The cat ran. The cat sat again today.").
Proof. vm_compute. reflexivity. Qed.

Example fallback_summarize_cat :
  fallback_summarize cat_text 2 = Ok (lit "The cat sat. The cat ran.").
Proof. vm_compute. reflexivity. Qed.

(** ** Counts below one *)

(** C7 fails: a count below one is not rejected.  With count 0 both
    functions return an empty result, and [fallback_summarize] takes a
    negative count as a slice bound from the end. *)
Lemma invalid_count_not_rejected :
  fallback_summarize (lit "One. Two. Three.") 0 = Ok (lit "")
  /\ fallback_summarize (lit "One. Two. Three.") (-1) = Ok (lit "One. Two.")
  /\ extract_topics (lit "one two two") 0 = []
  /\ ~ (forall text n, n < 1 -> exists e, fallback_summarize text n = Raise e).
Proof.
  assert (E : fallback_summarize (lit "One. Two. Three.") 0 = Ok (lit ""))
    by (vm_compute; reflexivity).
  repeat split; try (vm_compute; reflexivity).
  intro H. destruct (H (lit "One. Two. Three.") 0) as [e He]; [ lia | ].
  rewrite E in He. discriminate.
Qed.

(** C7, amended.  With a count below one neither function raises:
    [extract_topics] returns no topic, and [fallback_summarize] returns the
    join of sentences in document order, none of them for count 0 and as
    many as the slice keeps, the number of sentences plus the count if that
    is positive, for a negative count. *)
Theorem invalid_count_accepted (text : str) (n : Z) :
  n < 1 ->
  extract_topics text n = []
  /\ exists selected,
       in_document_order (split_into_sentences text) selected
       /\ len selected
          = (if n =? 0 then 0 else Z.max 0 (len (split_into_sentences text) + n))
       /\ fallback_summarize text n = Ok (join (lit " ") selected).
Proof.
  intro Hn. split.
  - rewrite extract_topics_eq. unfold most_common.
    replace (n <=? 0) with true by (symmetry; apply Z.leb_le; lia).
    reflexivity.
  - destruct (fallback_summarize_selection text n) as [selected [H [Hlen E]]].
    exists selected. split; [ exact H | split; [ | exact E ] ].
    rewrite Hlen. unfold summary_size.
    assert (0 <= len (split_into_sentences text)) by (unfold len; lia).
    destruct (Z.eqb_spec n 0);
      destruct (Z.leb_spec (len (split_into_sentences text)) n);
      destruct (Z.leb_spec 0 n); lia.
Qed.

Lemma invalid_count_accepted_witness :
  -1 < 1
  /\ extract_topics (lit "One. Two. Three.") (-1) = []
  /\ exists selected,
       in_document_order (split_into_sentences (lit "One. Two. Three.")) selected
       /\ len selected
          = (if -1 =? 0 then 0
             else Z.max 0 (len (split_into_sentences (lit "One. Two. Three.")) + -1))
       /\ fallback_summarize (lit "One. Two. Three.") (-1)
          = Ok (join (lit " ") selected).
Proof.
  assert (H : -1 < 1) by lia.
  exact (conj H (invalid_count_accepted (lit "One. Two. Three.") (-1) H)).
Defined.

(** ** Empty and blank input *)

Lemma isspace_not_sentence_end (c : ascii) :
  isspace c = true -> sentence_end c = false.
Proof.
  destruct c as [[] [] [] [] [] [] [] []]; vm_compute; intro H;
    first [ reflexivity | discriminate H ].
Qed.

Lemma isspace_lower_char (c : ascii) : isspace c = true -> lower_char c = c.
Proof.
  destruct c as [[] [] [] [] [] [] [] []]; vm_compute; intro H;
    first [ reflexivity | discriminate H ].
Qed.

Lemma lstrip_whitespace (text : str) : whitespace_only text -> lstrip text = [].
Proof.
  induction 1 as [ | c r Hc Hr IH]; simpl.
  - reflexivity.
  - now rewrite Hc.
Qed.

Lemma strip_whitespace (text : str) : whitespace_only text -> strip text = [].
Proof.
  intro H. unfold strip. now rewrite (lstrip_whitespace text H).
Qed.

Lemma split_whitespace (text : str) : whitespace_only text -> split text = [].
Proof.
  unfold split. induction 1 as [ | c r Hc Hr IH]; simpl.
  - reflexivity.
  - now rewrite Hc.
Qed.

Lemma sentence_boundary_after_whitespace (before : str) (c : ascii) :
  whitespace_only before -> sentence_boundary before c = false.
Proof.
  intro H. unfold sentence_boundary.
  destruct H as [ | c1 r Hc1 Hr].
  - now rewrite andb_false_r.
  - rewrite (isspace_not_sentence_end c1 Hc1). now rewrite andb_false_r.
Qed.

Lemma re_split_from_whitespace (text before piece : str) :
  whitespace_only before -> whitespace_only text ->
  re_split_from sentence_boundary before piece text = [rev piece ++ text].
Proof.
  intros Hb Ht. revert before piece Hb.
  induction Ht as [ | c r Hc Hr IH]; intros before piece Hb; simpl.
  - now rewrite app_nil_r.
  - rewrite (sentence_boundary_after_whitespace before c Hb).
    rewrite IH by now constructor.
    simpl. now rewrite <- app_assoc.
Qed.

Lemma split_into_sentences_whitespace (text : str) :
  whitespace_only text -> split_into_sentences text = [].
Proof.
  intro H. unfold split_into_sentences, re_split.
  rewrite (re_split_from_whitespace text [] []) by (constructor || exact H).
  simpl. now rewrite (strip_whitespace text H).
Qed.

Lemma topic_words_whitespace (text : str) :
  whitespace_only text -> topic_words text = [].
Proof.
  intro H. unfold topic_words. apply split_whitespace.
  unfold whitespace_only, re_sub_empty in *.
  apply Forall_forall. intros c Hc.
  apply filter_In in Hc. destruct Hc as [Hc _].
  unfold lower in Hc. apply in_map_iff in Hc. destruct Hc as [c' [<- Hc']].
  rewrite Forall_forall in H. specialize (H c' Hc').
  now rewrite (isspace_lower_char c' H).
Qed.

(** C6.  On an empty or whitespace-only text nothing raises and every
    result is empty: no sentence, no topic for any K, and the empty summary
    for any N (so in particular for K >= 1 and N >= 1). *)
Theorem blank_text_empty_results (text : str) :
  whitespace_only text ->
  split_into_sentences text = []
  /\ (forall K, extract_topics text K = [])
  /\ (forall N, fallback_summarize text N = Ok (lit "")).
Proof.
  intro H. split; [ now apply split_into_sentences_whitespace | split ].
  - intro K.
    destruct (extract_topics text K) as [ | topic r] eqn:E; [ reflexivity | ].
    assert (Hin : In topic (extract_topics text K)) by (rewrite E; now left).
    apply In_extract_topics in Hin.
    rewrite (topic_words_whitespace text H) in Hin. now destruct Hin.
  - intro N. unfold fallback_summarize.
    rewrite (split_into_sentences_whitespace text H).
    destruct (len [] <=? N); [ reflexivity | ].
    cbn. unfold top_sentences, slice_to.
    destruct (0 <=? N); rewrite firstn_nil; reflexivity.
Qed.

Lemma blank_text_empty_results_witness :
  whitespace_only [" "; "009"; "010"; " "]%char
  /\ split_into_sentences [" "; "009"; "010"; " "]%char = []
  /\ (forall K, extract_topics [" "; "009"; "010"; " "]%char K = [])
  /\ (forall N, fallback_summarize [" "; "009"; "010"; " "]%char N = Ok (lit "")).
Proof.
  assert (H : whitespace_only [" "; "009"; "010"; " "]%char)
    by (repeat constructor).
  exact (conj H (blank_text_empty_results _ H)).
Defined.

Example empty_text_empty_results :
  split_into_sentences (lit "") = []
  /\ extract_topics (lit "") 5 = []
  /\ fallback_summarize (lit "") 5 = Ok (lit "")
  /\ Total_Words (analyze_text (lit "")) = 0.
Proof. repeat split. Qed.

(** ** The words of [analyze_text] *)

Lemma concat_split_from (word s : str) :
  concat (split_from word s)
  = rev word ++ filter (fun c => negb (isspace c)) s.
Proof.
  revert word. induction s as [ | c r IH]; intro word; simpl.
  - destruct word; simpl; now rewrite ?app_nil_r.
  - destruct (isspace c); simpl.
    + destruct word as [ | a word']; simpl; now rewrite IH.
    + rewrite IH. simpl. now rewrite <- app_assoc.
Qed.

Lemma count_with_occurring (k : Z) (words : list str) :
  count_with k (Counter_of words) = len (occurring k words).
Proof.
  unfold count_with, len, occurring. rewrite sum_ones. f_equal.
  rewrite filter_values_keys by apply NoDup_keys_Counter_of.
  rewrite (filter_ext _ (fun w => Z.of_nat (count_occ str_eq_dec words w) =? k))
    by (intro w; now rewrite get_Counter_of).
  apply NoDup_same_length.
  - apply NoDup_filter, NoDup_keys_Counter_of.
  - apply NoDup_filter, NoDup_nodup.
  - intro x. rewrite !filter_In, nodup_In, In_keys_Counter_of. tauto.
Qed.

(** C10.  [analyze_text] compares words after lower-casing only.  Its words
    are the whitespace-separated tokens lower-cased, with every character
    that is not whitespace kept, punctuation included; the three counters
    count the distinct such words that occur exactly two, three and four
    times.  So "world." and "world" are two words, and the counters differ
    from those over the punctuation-stripped tokens. *)
Theorem analyze_text_keeps_punctuation :
  (forall text,
      concat (analyze_words text)
      = lower (filter (fun c => negb (isspace c)) text))
  /\ (forall text,
         Single_Word_Repeated (analyze_text text)
         = len (occurring 2 (analyze_words text))
         /\ Double_Word_Repeated (analyze_text text)
            = len (occurring 3 (analyze_words text))
         /\ Triple_Word_Repeated (analyze_text text)
            = len (occurring 4 (analyze_words text)))
  /\ analyze_words (lit "world. world") = [lit "world."; lit "world"]
  /\ topic_words (lit "world. world") = [lit "world"; lit "world"]
  /\ Single_Word_Repeated (analyze_text (lit "world. world")) = 0
  /\ len (occurring 2 (topic_words (lit "world. world"))) = 1.
Proof.
  split; [ | split ].
  - intro text. unfold analyze_words, split.
    change (map lower (split_from [] text))
      with (map (map lower_char) (split_from [] text)).
    rewrite <- concat_map. now rewrite concat_split_from.
  - intro text. unfold analyze_text. cbn [Single_Word_Repeated
      Double_Word_Repeated Triple_Word_Repeated].
    now rewrite !count_with_occurring.
  - vm_compute. repeat split.
Qed.

(** ** More on the segmenter *)

(** *** Stripping and splitting *)

Lemma lstrip_decompose (s : str) :
  exists blank, whitespace_only blank /\ s = blank ++ lstrip s.
Proof.
  induction s as [ | c r [blank [Hb E]]]; simpl.
  - exists []. split; [ constructor | reflexivity ].
  - destruct (isspace c) eqn:Hc.
    + exists (c :: blank). split; [ now constructor | ].
      simpl. now rewrite <- E.
    + exists []. split; [ constructor | reflexivity ].
Qed.

Lemma lstrip_head (s : str) (c : ascii) (r : str) :
  lstrip s = c :: r -> isspace c = false.
Proof.
  induction s as [ | a s IH]; simpl; [ discriminate | ].
  destruct (isspace a) eqn:Ha; [ exact IH | ].
  intro E. injection E as <- _. exact Ha.
Qed.

Lemma rstrip_decompose (s : str) :
  exists blank, whitespace_only blank /\ s = rstrip s ++ blank.
Proof.
  destruct (lstrip_decompose (rev s)) as [blank [Hb E]].
  exists (rev blank). split.
  - now apply Forall_rev.
  - unfold rstrip. rewrite <- rev_app_distr, <- E. now rewrite rev_involutive.
Qed.

(** A whitespace character ends the word being read. *)
Lemma split_from_app_space (word a : str) (c : ascii) (b : str) :
  isspace c = true ->
  split_from word (a ++ c :: b) = split_from word a ++ split b.
Proof.
  intro Hc. revert word. induction a as [ | x a IH]; intro word; simpl.
  - rewrite Hc. unfold split. now destruct word.
  - destruct (isspace x).
    + destruct word; simpl; now rewrite IH.
    + apply IH.
Qed.

Lemma split_app_whitespace (a blank : str) :
  whitespace_only blank -> split (a ++ blank) = split a.
Proof.
  intro H. destruct H as [ | c r Hc Hr].
  - now rewrite app_nil_r.
  - unfold split. rewrite (split_from_app_space [] a c r Hc).
    rewrite (split_whitespace r Hr). now rewrite app_nil_r.
Qed.

Lemma split_whitespace_app (blank s : str) :
  whitespace_only blank -> split (blank ++ s) = split s.
Proof.
  unfold split. induction 1 as [ | c r Hc Hr IH]; simpl.
  - reflexivity.
  - now rewrite Hc.
Qed.

Lemma split_strip (s : str) : split (strip s) = split s.
Proof.
  unfold strip.
  destruct (lstrip_decompose s) as [b1 [H1 E1]].
  destruct (rstrip_decompose (lstrip s)) as [b2 [H2 E2]].
  rewrite E1 at 2. rewrite (split_whitespace_app b1 _ H1).
  rewrite E2 at 2. now rewrite (split_app_whitespace _ b2 H2).
Qed.

(** The pieces of [re.split] on a pattern that matches whitespace only have
    the words of the text. *)
Lemma split_re_split_from (p : str -> ascii -> bool) :
  (forall before c, p before c = true -> isspace c = true) ->
  forall s before piece,
    concat (map split (re_split_from p before piece s))
    = split (rev piece ++ s).
Proof.
  intros Hp s. induction s as [ | c r IH]; intros before piece; simpl.
  - now rewrite !app_nil_r.
  - destruct (p before c) eqn:E.
    + simpl. rewrite IH. simpl.
      unfold split at 3.
      now rewrite (split_from_app_space [] (rev piece) c r (Hp _ _ E)).
    + rewrite IH. simpl. now rewrite <- app_assoc.
Qed.

Lemma sentence_boundary_isspace (before : str) (c : ascii) :
  sentence_boundary before c = true -> isspace c = true.
Proof.
  unfold sentence_boundary. intro H.
  now apply andb_true_iff in H.
Qed.

Lemma split_trimmed_pieces (pieces : list str) :
  concat (map split
            (map strip (filter (fun s => negb (str_eqb (strip s) [])) pieces)))
  = concat (map split pieces).
Proof.
  induction pieces as [ | s r IH]; simpl.
  - reflexivity.
  - destruct (str_eq_dec (strip s) []) as [E | E].
    + rewrite E, str_eqb_refl. simpl. rewrite IH.
      rewrite <- (split_strip s), E. reflexivity.
    + rewrite (str_eqb_neq _ _ E). simpl.
      now rewrite IH, split_strip.
Qed.

(** The pieces the segmenter cuts have the words of the text. *)
Lemma split_sentence_pieces (text : str) :
  concat (map split (re_split sentence_boundary text)) = split text.
Proof.
  unfold re_split.
  now rewrite (split_re_split_from _ sentence_boundary_isspace).
Qed.

(** X1.  The words of the sentences, sentence after sentence, are the words
    of the text: the segmenter cuts at whitespace only, so no word is cut,
    lost or moved. *)
Theorem sentences_keep_words (text : str) :
  concat (map split (split_into_sentences text)) = split text.
Proof.
  unfold split_into_sentences.
  rewrite split_trimmed_pieces. apply split_sentence_pieces.
Qed.

Lemma strip_trimmed (s : str) : trimmed (strip s).
Proof.
  split; intros c r E.
  - destruct (rstrip_decompose (lstrip s)) as [blank [_ D]].
    fold (strip s) in D. rewrite E in D. simpl in D.
    exact (lstrip_head s c _ D).
  - assert (R : lstrip (rev (lstrip s)) = c :: rev r).
    { rewrite <- (rev_involutive (lstrip (rev (lstrip s)))).
      fold (rstrip (lstrip s)). fold (strip s). rewrite E.
      now rewrite rev_app_distr. }
    exact (lstrip_head _ c _ R).
Qed.

Lemma split_from_word (word s : str) : word <> [] -> split_from word s <> [].
Proof.
  revert word. induction s as [ | c r IH]; intros word H; simpl.
  - destruct word; [ congruence | discriminate ].
  - destruct (isspace c).
    + destruct word; [ congruence | discriminate ].
    + apply IH. discriminate.
Qed.

Lemma trimmed_has_word (s : str) : s <> [] -> trimmed s -> split s <> [].
Proof.
  intros Hs [Hhead _]. destruct s as [ | c r]; [ congruence | ].
  unfold split. simpl. rewrite (Hhead c r eq_refl).
  apply split_from_word. discriminate.
Qed.

Lemma In_split_into_sentences (text s : str) :
  In s (split_into_sentences text) -> s <> [] /\ trimmed s.
Proof.
  unfold split_into_sentences. intro H.
  apply in_map_iff in H. destruct H as [piece [<- H]].
  apply filter_In in H. destruct H as [_ H].
  split; [ | apply strip_trimmed ].
  intro E. rewrite E, str_eqb_refl in H. discriminate.
Qed.

(** X2.  Every sentence of the segmenter is non-empty, starts and ends with
    a character that is no whitespace, and has at least one word. *)
Theorem sentences_trimmed (text : str) :
  Forall (fun s => s <> [] /\ trimmed s /\ split s <> [])
    (split_into_sentences text).
Proof.
  apply Forall_forall. intros s H.
  destruct (In_split_into_sentences text s H) as [Hs Ht].
  repeat split; try apply Ht; [ exact Hs | now apply trimmed_has_word ].
Qed.

Lemma length_concat_nonempty {A} (l : list (list A)) :
  Forall (fun x => x <> []) l -> (length l <= length (concat l))%nat.
Proof.
  induction 1 as [ | x r Hx Hr IH]; simpl.
  - lia.
  - rewrite length_app. destruct x; [ congruence | simpl; lia ].
Qed.

(** X3.  A text has at most as many sentences as it has words. *)
Theorem sentences_at_most_words (text : str) :
  len (split_into_sentences text) <= len (split text).
Proof.
  assert (E : concat (map split (split_into_sentences text)) = split text).
  { unfold split_into_sentences.
    rewrite split_trimmed_pieces. apply split_sentence_pieces. }
  unfold len. rewrite <- E.
  rewrite <- (length_map split (split_into_sentences text)).
  apply inj_le, length_concat_nonempty.
  apply Forall_forall. intros ws H.
  apply in_map_iff in H. destruct H as [s [<- H]].
  destruct (In_split_into_sentences text s H) as [Hs Ht].
  now apply trimmed_has_word.
Qed.

(** ** Normalization *)

Ltac all_characters c :=
  destruct c as [[] [] [] [] [] [] [] []]; vm_compute;
  try reflexivity; try discriminate.

Lemma lower_char_idempotent (c : ascii) :
  lower_char (lower_char c) = lower_char c.
Proof. all_characters c. Qed.

Lemma punctuation_lower_char (c : ascii) :
  punctuation (lower_char c) = punctuation c.
Proof. all_characters c. Qed.

Lemma isspace_lower (c : ascii) : isspace (lower_char c) = isspace c.
Proof. all_characters c. Qed.

Lemma sentence_end_lower (c : ascii) :
  sentence_end (lower_char c) = sentence_end c.
Proof. all_characters c. Qed.

Lemma lower_idempotent (s : str) : lower (lower s) = lower s.
Proof.
  unfold lower. rewrite map_map. apply map_ext, lower_char_idempotent.
Qed.

Lemma normalize_idempotent (s : str) :
  re_sub_empty punctuation (lower (re_sub_empty punctuation (lower s)))
  = re_sub_empty punctuation (lower s).
Proof.
  unfold re_sub_empty, lower. induction s as [ | c r IH].
  - reflexivity.
  - cbn [map filter].
    destruct (punctuation (lower_char c)) eqn:E; cbn [negb map filter].
    + exact IH.
    + rewrite lower_char_idempotent, E. cbn [negb]. now rewrite IH.
Qed.

(** X4.  Normalizing is idempotent: the sentences [fallback_summarize] has
    processed are unchanged by processing them again, and a text that is
    already lower-cased and stripped of punctuation has the same topic
    words. *)
Theorem normalization_idempotent :
  (forall sentences,
      process_sentences (process_sentences sentences)
      = process_sentences sentences)
  /\ (forall text,
         topic_words (re_sub_empty punctuation (lower text))
         = topic_words text).
Proof.
  split.
  - intro sentences. unfold process_sentences. rewrite map_map.
    apply map_ext. intro s. apply normalize_idempotent.
  - intro text. unfold topic_words. now rewrite normalize_idempotent.
Qed.

(** The words [split] returns are non-empty runs of characters of the
    string that are no whitespace. *)
Lemma In_split_from (s word t : str) :
  Forall (fun c => isspace c = false) word ->
  In t (split_from word s) ->
  t <> []
  /\ Forall (fun c => isspace c = false /\ (In c word \/ In c s)) t.
Proof.
  revert word. induction s as [ | c r IH]; intros word Hw Ht; simpl in Ht.
  - destruct word as [ | a w]; [ contradiction | ].
    destruct Ht as [<- | []]. split.
    + intro E. apply (f_equal (@length ascii)) in E.
      rewrite length_rev in E. discriminate.
    + apply Forall_forall. intros x Hx. apply in_rev in Hx.
      rewrite Forall_forall in Hw. split; [ now apply Hw | now left ].
  - destruct (isspace c) eqn:Hc.
    + assert (Hrec : In t (split_from [] r) ->
                     t <> []
                     /\ Forall (fun x => isspace x = false
                                         /\ (In x word \/ In x (c :: r))) t).
      { intro H. destruct (IH [] (Forall_nil _) H) as [Hne Hall].
        split; [ exact Hne | ].
        eapply Forall_impl; [ | exact Hall ].
        simpl. intros x [Hx [[] | Hin]]. split; [ exact Hx | right; now right ]. }
      destruct word as [ | a w]; [ now apply Hrec | ].
      destruct Ht as [<- | Ht]; [ | now apply Hrec ].
      split.
      * intro E. apply (f_equal (@length ascii)) in E.
        rewrite length_rev in E. discriminate.
      * apply Forall_forall. intros x Hx. apply in_rev in Hx.
        rewrite Forall_forall in Hw. split; [ now apply Hw | now left ].
    + destruct (IH (c :: word) (Forall_cons _ Hc Hw) Ht) as [Hne Hall].
      split; [ exact Hne | ].
      eapply Forall_impl; [ | exact Hall ].
      simpl. intros x [Hx [[<- | Hin] | Hin]]; split; try exact Hx.
      * right; now left.
      * now left.
      * right; now right.
Qed.

Lemma In_split (s t : str) :
  In t (split s) ->
  t <> [] /\ Forall (fun c => isspace c = false /\ In c s) t.
Proof.
  intro H. destruct (In_split_from s [] t (Forall_nil _) H) as [Hne Hall].
  split; [ exact Hne | ].
  eapply Forall_impl; [ | exact Hall ].
  simpl. intros x [Hx [[] | Hin]]. now split.
Qed.

Lemma word_character (c : ascii) :
  punctuation c = false -> isspace c = false -> is_word c = true.
Proof.
  unfold punctuation. intros Hp Hs. rewrite Hs, orb_false_r in Hp.
  now apply negb_false_iff in Hp.
Qed.

Lemma topic_words_shape (text word : str) :
  In word (topic_words text) ->
  word <> []
  /\ Forall (fun c => is_word c = true) word
  /\ lower word = word.
Proof.
  unfold topic_words. intro H. apply In_split in H. destruct H as [Hne Hall].
  split; [ exact Hne | ].
  assert (Hc : Forall (fun c => is_word c = true /\ lower_char c = c) word).
  { eapply Forall_impl; [ | exact Hall ].
    simpl. intros c [Hs Hin].
    unfold re_sub_empty in Hin. apply filter_In in Hin.
    destruct Hin as [Hin Hp]. apply negb_true_iff in Hp.
    unfold lower in Hin. apply in_map_iff in Hin. destruct Hin as [c' [<- _]].
    split; [ now apply word_character | apply lower_char_idempotent ]. }
  split.
  - eapply Forall_impl; [ | exact Hc ]. now intros c [H _].
  - unfold lower. rewrite <- (map_id word) at 2.
    apply map_ext_Forall.
    eapply Forall_impl; [ | exact Hc ]. now intros c [_ H].
Qed.

(** X5.  Every topic is made of word characters only (letters, digits and
    underscore: no whitespace, no punctuation), is in lower case, and is a
    word of the normalized text. *)
Theorem topics_are_lower_case_words (text : str) (K : Z) :
  Forall (fun topic =>
            Forall (fun c => is_word c = true) topic
            /\ lower topic = topic
            /\ In topic (topic_words text))
    (extract_topics text K).
Proof.
  apply Forall_forall. intros topic H.
  apply In_extract_topics in H. destruct H as [Hin _].
  destruct (topic_words_shape text topic Hin) as [_ [Hw Hl]].
  now repeat split.
Qed.

(** X6.  The topics do not depend on the case of the letters of the text. *)
Theorem topics_ignore_case (text : str) (K : Z) :
  extract_topics (lower text) K = extract_topics text K.
Proof.
  unfold extract_topics, topic_words. now rewrite lower_idempotent.
Qed.

(** ** The ranking of the topics *)

Lemma get_of_item (c : Counter) (w : str) (v : Z) :
  NoDup (keys c) -> In (w, v) c -> get c w = v.
Proof.
  induction c as [ | [k u] r IH]; simpl; intros Hnd Hin.
  - contradiction.
  - inversion Hnd as [ | ? ? Hk Hr]; subst.
    destruct Hin as [Heq | Hin].
    + inversion Heq; subst. now rewrite str_eqb_refl.
    + case_str k w.
      * exfalso. apply Hk. change (In w (map fst r)).
        apply in_map_iff. now exists (w, v).
      * now apply IH.
Qed.

(** Sorting in reverse on a key in [Z] puts the keys in non-increasing
    order. *)
Lemma insert_descending {A} (key : A -> Z) (x : A) (l : list A) :
  StronglySorted (fun a b => key b <= key a) l ->
  StronglySorted (fun a b => key b <= key a)
    (insert (fun y x => key x <? key y) x l).
Proof.
  induction l as [ | y r IH]; simpl; intro H.
  - repeat constructor.
  - apply StronglySorted_inv in H. destruct H as [Hr Hy].
    destruct (Z.ltb_spec (key x) (key y)) as [Hlt | Hge].
    + constructor; [ now apply IH | ].
      rewrite Forall_forall in *. intros b Hb.
      apply (Permutation_in _ (Permutation_insert _ x r)) in Hb.
      destruct Hb as [ <- | Hb ]; [ lia | now apply Hy ].
    + constructor; [ now constructor | ].
      constructor; [ exact Hge | ].
      rewrite Forall_forall in *. intros b Hb. specialize (Hy b Hb). lia.
Qed.

Lemma sorted_reverse_descending {A} (key : A -> Z) (l : list A) :
  StronglySorted (fun a b => key b <= key a) (sorted_reverse Z.ltb key l).
Proof.
  unfold sorted_reverse. induction l as [ | x r IH]; simpl.
  - constructor.
  - now apply insert_descending.
Qed.

Lemma StronglySorted_app_inv {A} (R : A -> A -> Prop) (l1 l2 : list A) :
  StronglySorted R (l1 ++ l2) ->
  StronglySorted R l1 /\ forall a b, In a l1 -> In b l2 -> R a b.
Proof.
  induction l1 as [ | x l1 IH]; simpl; intro H.
  - split; [ constructor | intros a b [] ].
  - apply StronglySorted_inv in H. destruct H as [Hs Hx].
    destruct (IH Hs) as [H1 H12]. split.
    + constructor; [ exact H1 | ].
      rewrite Forall_forall in *. intros b Hb. apply Hx, in_or_app. now left.
    + intros a b [<- | Ha] Hb; [ | now apply H12 ].
      rewrite Forall_forall in Hx. apply Hx, in_or_app. now right.
Qed.

Lemma StronglySorted_map {A B} (f : A -> B) (R : B -> B -> Prop) (l : list A) :
  StronglySorted (fun a b => R (f a) (f b)) l -> StronglySorted R (map f l).
Proof.
  induction 1 as [ | x l Hl IH Hx]; simpl; constructor.
  - exact IH.
  - rewrite Forall_forall in *. intros b Hb.
    apply in_map_iff in Hb. destruct Hb as [a [<- Ha]]. now apply Hx.
Qed.

(** The items [extract_topics] ranks carry the frequencies of their words. *)
Lemma filtered_word_freq_item (text word : str) (freq : Z) :
  In (word, freq) (filtered_word_freq text) ->
  freq = frequency text word /\ In word (topic_words text)
  /\ qualifies word = true.
Proof.
  unfold filtered_word_freq, items. intro H.
  apply filter_In in H. destruct H as [H Hq].
  split; [ | split; [ | exact Hq ] ].
  - rewrite <- (get_of_item _ _ _ (NoDup_keys_Counter_of _) H).
    apply get_Counter_of.
  - apply In_keys_Counter_of. apply in_map_iff. now exists (word, freq).
Qed.

Lemma NoDup_keys_filtered_word_freq (text : str) :
  NoDup (keys (filtered_word_freq text)).
Proof.
  rewrite keys_filtered_word_freq.
  apply NoDup_filter, NoDup_keys_Counter_of.
Qed.

(** The ranking: all the items, from the most frequent to the least. *)
Lemma ranking_facts (text : str) :
  let ranking := sorted_reverse Z.ltb snd (items (filtered_word_freq text)) in
  Permutation ranking (filtered_word_freq text)
  /\ StronglySorted (fun a b => snd b <= snd a) ranking
  /\ NoDup (map fst ranking).
Proof.
  intro ranking.
  assert (P : Permutation ranking (filtered_word_freq text))
    by apply Permutation_sorted_by.
  split; [ exact P | split ].
  - apply sorted_reverse_descending.
  - apply (Permutation_NoDup (Permutation_map fst (Permutation_sym P))).
    apply NoDup_keys_filtered_word_freq.
Qed.

Lemma extract_topics_firstn (text : str) (K : Z) :
  extract_topics text K
  = firstn (Z.to_nat K)
      (map fst (sorted_reverse Z.ltb snd (items (filtered_word_freq text)))).
Proof.
  rewrite extract_topics_eq. unfold most_common.
  destruct (Z.leb_spec K 0).
  - replace (Z.to_nat K) with 0%nat by lia. reflexivity.
  - now rewrite firstn_map.
Qed.

(** X7.  No topic is returned twice. *)
Theorem topics_distinct (text : str) (K : Z) :
  NoDup (extract_topics text K).
Proof.
  rewrite extract_topics_firstn.
  destruct (ranking_facts text) as [_ [_ Hnd]].
  rewrite <- (firstn_skipn (Z.to_nat K)) in Hnd.
  now apply NoDup_app_remove_r in Hnd.
Qed.

(** X8.  The topics come from the most frequent to the least frequent: no
    topic is more frequent in the normalized text than one before it. *)
Theorem topics_by_descending_frequency (text : str) (K : Z) :
  StronglySorted (fun a b => frequency text b <= frequency text a)
    (extract_topics text K).
Proof.
  rewrite extract_topics_eq. apply StronglySorted_map.
  destruct (ranking_facts text) as [P [Hs _]].
  assert (Hfreq : forall p, In p (most_common K (filtered_word_freq text)) ->
                            snd p = frequency text (fst p)).
  { intros [w v] Hp. apply In_most_common in Hp.
    now apply filtered_word_freq_item in Hp. }
  assert (Hsorted : StronglySorted (fun a b => snd b <= snd a)
                      (most_common K (filtered_word_freq text))).
  { unfold most_common. destruct (K <=? 0); [ constructor | ].
    rewrite <- (firstn_skipn (Z.to_nat K)) in Hs.
    now apply StronglySorted_app_inv in Hs. }
  revert Hfreq. induction Hsorted as [ | p l Hl IH Hp]; intro Hfreq.
  - constructor.
  - constructor.
    + apply IH. intros q Hq. apply Hfreq. now right.
    + rewrite Forall_forall in *. intros q Hq.
      rewrite <- (Hfreq p) by now left.
      rewrite <- (Hfreq q) by now right.
      now apply Hp.
Qed.

(** X9.  The topics are the most frequent qualifying words: for K >= 1, a
    word of the normalized text that qualifies and is not among the topics
    is at most as frequent as every topic. *)
Theorem topics_are_most_frequent (text : str) (K : Z) (word topic : str) :
  1 <= K ->
  In word (topic_words text) -> qualifies word = true ->
  ~ In word (extract_topics text K) ->
  In topic (extract_topics text K) ->
  frequency text word <= frequency text topic.
Proof.
  intros HK Hword Hq Hout Hin.
  rewrite extract_topics_firstn in Hout, Hin.
  destruct (ranking_facts text) as [P [Hs _]].
  set (ranking := sorted_reverse Z.ltb snd (items (filtered_word_freq text))) in *.
  rewrite firstn_map in Hout, Hin.
  assert (Hkey : In word (map fst ranking)).
  { apply (Permutation_in _ (Permutation_map fst (Permutation_sym P))).
    change (In word (keys (filtered_word_freq text))).
    rewrite keys_filtered_word_freq, filter_In, In_keys_Counter_of.
    now split. }
  apply in_map_iff in Hkey. destruct Hkey as [[w v] [Ew Hw]]. simpl in Ew. subst w.
  apply in_map_iff in Hin. destruct Hin as [[t u] [Et Ht]]. simpl in Et. subst t.
  rewrite <- (firstn_skipn (Z.to_nat K) ranking) in Hw, Hs.
  apply in_app_or in Hw. destruct Hw as [Hw | Hw].
  - exfalso. apply Hout. apply in_map_iff. now exists (word, v).
  - apply StronglySorted_app_inv in Hs. destruct Hs as [_ Hs].
    specialize (Hs _ _ Ht Hw). simpl in Hs.
    assert (Hv : v = frequency text word).
    { apply (filtered_word_freq_item text word v).
      apply (Permutation_in _ P). unfold ranking.
      rewrite <- (firstn_skipn (Z.to_nat K)). apply in_or_app. now right. }
    assert (Hu : u = frequency text topic).
    { apply (filtered_word_freq_item text topic u).
      apply (Permutation_in _ P). now apply In_firstn in Ht. }
    lia.
Qed.

(** X10.  Asking for fewer topics gives a prefix of the longer list. *)
Theorem topics_prefix (text : str) (K K' : Z) :
  K <= K' ->
  extract_topics text K = firstn (Z.to_nat K) (extract_topics text K').
Proof.
  intro H. rewrite !extract_topics_firstn, firstn_firstn.
  f_equal. lia.
Qed.

(** X11.  When K is at least the number of distinct qualifying words, the
    topics are all of them: a word is a topic exactly when it is a word of
    the normalized text, is no stop-word and is longer than two characters. *)
Theorem topics_complete (text : str) (K : Z) (word : str) :
  len (qualifying_tokens text) <= K ->
  (In word (extract_topics text K)
   <-> In word (topic_words text) /\ ~ In word stop_words /\ 2 < len word).
Proof.
  intro HK. rewrite <- qualifies_iff. split.
  - apply In_extract_topics.
  - intros [Hw Hq]. rewrite extract_topics_firstn.
    destruct (ranking_facts text) as [P _].
    rewrite firstn_all2.
    + apply (Permutation_in _ (Permutation_map fst (Permutation_sym P))).
      change (In word (keys (filtered_word_freq text))).
      rewrite keys_filtered_word_freq, filter_In, In_keys_Counter_of.
      now split.
    + rewrite length_map, (Permutation_length P), length_filtered_word_freq.
      unfold len in HK. lia.
Qed.

Lemma In_existsb (x : str) (l : list str) :
  In x l <-> existsb (str_eqb x) l = true.
Proof.
  rewrite existsb_exists. split.
  - intro H. exists x. split; [ exact H | apply str_eqb_refl ].
  - intros [y [Hy E]]. apply str_eqb_eq in E. now subst.
Qed.

Lemma not_In_existsb (x : str) (l : list str) :
  existsb (str_eqb x) l = false -> ~ In x l.
Proof.
  intros E H. apply In_existsb in H. congruence.
Qed.

Lemma topics_are_most_frequent_witness :
  1 <= 2
  /\ In (lit "dog") (topic_words cat_text)
  /\ qualifies (lit "dog") = true
  /\ ~ In (lit "dog") (extract_topics cat_text 2)
  /\ In (lit "sat") (extract_topics cat_text 2)
  /\ frequency cat_text (lit "dog") <= frequency cat_text (lit "sat").
Proof.
  assert (H1 : 1 <= 2) by lia.
  assert (H2 : In (lit "dog") (topic_words cat_text))
    by (apply In_existsb; vm_compute; reflexivity).
  assert (H3 : qualifies (lit "dog") = true) by (vm_compute; reflexivity).
  assert (H4 : ~ In (lit "dog") (extract_topics cat_text 2))
    by (apply not_In_existsb; vm_compute; reflexivity).
  assert (H5 : In (lit "sat") (extract_topics cat_text 2))
    by (apply In_existsb; vm_compute; reflexivity).
  exact (conj H1 (conj H2 (conj H3 (conj H4 (conj H5
           (topics_are_most_frequent cat_text 2 _ _ H1 H2 H3 H4 H5)))))).
Defined.

Lemma topics_prefix_witness :
  2 <= 5
  /\ extract_topics cat_text 2
     = firstn (Z.to_nat 2) (extract_topics cat_text 5).
Proof.
  assert (H : 2 <= 5) by lia.
  exact (conj H (topics_prefix cat_text 2 5 H)).
Defined.

Lemma topics_complete_witness :
  len (qualifying_tokens cat_text) <= 10
  /\ (In (lit "today") (extract_topics cat_text 10)
      <-> In (lit "today") (topic_words cat_text)
          /\ ~ In (lit "today") stop_words /\ 2 < len (lit "today")).
Proof.
  assert (H : len (qualifying_tokens cat_text) <= 10)
    by (apply Z.leb_le; vm_compute; reflexivity).
  exact (conj H (topics_complete cat_text 10 (lit "today") H)).
Defined.

(** ** The size of the summary *)

(** X12.  For N >= 0 the summary of [fallback_summarize] has N of the
    sentences of the text, or all of them when the text has fewer: never
    more than N, and never fewer when the text has them. *)
Theorem summary_has_min_sentences (text : str) (N : Z) :
  0 <= N ->
  exists selected,
    in_document_order (split_into_sentences text) selected
    /\ len selected = Z.min N (len (split_into_sentences text))
    /\ fallback_summarize text N = Ok (join (lit " ") selected).
Proof.
  intro HN.
  destruct (fallback_summarize_selection text N) as [selected [Ho [Hl E]]].
  exists selected. split; [ exact Ho | split; [ | exact E ] ].
  rewrite Hl. unfold summary_size.
  destruct (Z.leb_spec (len (split_into_sentences text)) N);
    destruct (Z.leb_spec 0 N); lia.
Qed.

Lemma summary_has_min_sentences_witness :
  0 <= 3
  /\ exists selected,
       in_document_order (split_into_sentences cat_text) selected
       /\ len selected = Z.min 3 (len (split_into_sentences cat_text))
       /\ fallback_summarize cat_text 3 = Ok (join (lit " ") selected).
Proof.
  assert (H : 0 <= 3) by lia.
  exact (conj H (summary_has_min_sentences cat_text 3 H)).
Defined.

Lemma join_nonempty (sep s : str) (r : list str) :
  s <> [] -> join sep (s :: r) <> [].
Proof.
  intros Hs E. simpl in E. destruct r.
  - contradiction.
  - apply app_eq_nil in E. now destruct E.
Qed.

Lemma has_word_has_sentence (text : str) :
  split text <> [] -> split_into_sentences text <> [].
Proof.
  intros Hw E. apply Hw.
  assert (K : concat (map split (split_into_sentences text)) = split text).
  { unfold split_into_sentences.
    rewrite split_trimmed_pieces. apply split_sentence_pieces. }
  rewrite <- K, E. reflexivity.
Qed.

(** X13.  A text with at least one word has a summary that is not empty,
    for every N >= 1. *)
Theorem summary_not_empty (text : str) (N : Z) :
  1 <= N -> split text <> [] ->
  exists summary, fallback_summarize text N = Ok summary /\ summary <> [].
Proof.
  intros HN Hw.
  destruct (fallback_summarize_selection text N)
    as [selected [[positions [_ [Hrange E]]] [Hl Hs]]].
  exists (join (lit " ") selected). split; [ exact Hs | ].
  assert (Hne : split_into_sentences text <> [])
    by now apply has_word_has_sentence.
  assert (Hlen : 1 <= len selected).
  { rewrite Hl. unfold summary_size.
    assert (1 <= len (split_into_sentences text)).
    { unfold len. destruct (split_into_sentences text);
        [ congruence | simpl length; lia ]. }
    destruct (Z.leb_spec (len (split_into_sentences text)) N);
      destruct (Z.leb_spec 0 N); lia. }
  destruct positions as [ | i positions].
  - subst selected. unfold len in Hlen. simpl in Hlen. lia.
  - subst selected. cbn [map]. apply join_nonempty.
    inversion Hrange as [ | ? ? Hi _]; subst.
    apply (In_split_into_sentences text). now apply nth_In.
Qed.

Lemma summary_not_empty_witness :
  1 <= 1
  /\ split cat_text <> []
  /\ exists summary,
       fallback_summarize cat_text 1 = Ok summary /\ summary <> [].
Proof.
  assert (H1 : 1 <= 1) by lia.
  assert (H2 : split cat_text <> []) by (vm_compute; discriminate).
  exact (conj H1 (conj H2 (summary_not_empty cat_text 1 H1 H2))).
Defined.

(** ** Text taken from a PDF *)

Lemma pdf_text_concat (pages : list str) (text : str) :
  fold_left (fun text page => text ++ page ++ ["010"%char]) pages text
  = text ++ concat (map (fun page => page ++ ["010"%char]) pages).
Proof.
  revert text. induction pages as [ | page r IH]; intro text; simpl.
  - now rewrite app_nil_r.
  - rewrite IH. now rewrite <- !app_assoc.
Qed.

Lemma split_pages (pages : list str) :
  split (concat (map (fun page => page ++ ["010"%char]) pages))
  = concat (map split pages).
Proof.
  induction pages as [ | page r IH]; simpl.
  - reflexivity.
  - rewrite <- app_assoc. unfold split at 1. simpl app.
    rewrite (split_from_app_space [] page "010"%char _ eq_refl).
    now rewrite IH.
Qed.

(** X14.  The text taken from a PDF is trimmed, its words are the words of
    the pages in order, and it is empty exactly when the library raised or
    no page has a word. *)
Theorem pdf_text_words (pages : result (list str)) :
  trimmed (extract_text_from_pdf pages)
  /\ split (extract_text_from_pdf pages)
     = match pages with
       | Ok pages => concat (map split pages)
       | Raise _ => []
       end
  /\ (extract_text_from_pdf pages = []
      <-> split (extract_text_from_pdf pages) = []).
Proof.
  assert (T : trimmed (extract_text_from_pdf pages)).
  { destruct pages as [pages | e]; simpl.
    - apply strip_trimmed.
    - split; intros c r E; [ discriminate | now destruct r ]. }
  split; [ exact T | split ].
  - destruct pages as [pages | e]; simpl; [ | reflexivity ].
    rewrite split_strip, pdf_text_concat. simpl app. apply split_pages.
  - split.
    + intros ->. reflexivity.
    + intro E. destruct (extract_text_from_pdf pages) eqn:D; [ reflexivity | ].
      exfalso. revert E. apply trimmed_has_word; [ discriminate | exact T ].
Qed.

Lemma summarize_text_Ok (lsa : result (list str)) (text : str) (N : Z) :
  exists summary,
    summarize_text lsa text N = Ok summary
    /\ (forall sentences, lsa = Ok sentences ->
         summary = join (lit " ") sentences)
    /\ (forall e, lsa = Raise e -> fallback_summarize text N = Ok summary).
Proof.
  destruct lsa as [sentences | e]; cbn [summarize_text].
  - exists (join (lit " ") sentences). split; [ reflexivity | split ].
    + intros l E. now injection E as <-.
    + intros e E. discriminate.
  - destruct (fallback_summarize_selection text N) as [selected [_ [_ E]]].
    exists (join (lit " ") selected). split; [ exact E | split ].
    + intros l El. discriminate.
    + intros e' _. exact E.
Qed.

Lemma fallback_summary_not_empty (text summary : str) (N : Z) :
  1 <= N -> split text <> [] ->
  fallback_summarize text N = Ok summary -> summary <> [].
Proof.
  intros HN Hw Hs.
  destruct (fallback_summarize_selection text N)
    as [selected [[positions [_ [Hrange E]]] [Hl Hs']]].
  rewrite Hs in Hs'. injection Hs' as ->.
  apply has_word_has_sentence in Hw.
  assert (Hlen : 1 <= len selected).
  { rewrite Hl. unfold summary_size.
    assert (1 <= len (split_into_sentences text)).
    { unfold len. destruct (split_into_sentences text);
        [ congruence | simpl length; lia ]. }
    destruct (Z.leb_spec (len (split_into_sentences text)) N);
      destruct (Z.leb_spec 0 N); lia. }
  destruct positions as [ | i positions].
  - subst selected. unfold len in Hlen. simpl in Hlen. lia.
  - subst selected. cbn [map]. apply join_nonempty.
    inversion Hrange as [ | ? ? Hi _]; subst.
    apply (In_split_into_sentences text). now apply nth_In.
Qed.

(** X15.  The handler of "Process PDF" (lines 703-718), for the N >= 1 of
    its slider.  It shows the error exactly when no text was extracted.
    Otherwise it stores the extracted text, which is not empty, its topics,
    and a summary that [summarize_text] returns without raising: the join
    of what the library returned, or, when the library raised, the summary
    of [fallback_summarize], which is then not empty. *)
Theorem pdf_page_results (pages : result (list str))
    (lsa : result (list str)) (N K : Z) :
  1 <= N ->
  match process_pdf pages lsa N K with
  | None => extract_text_from_pdf pages = []
  | Some r =>
      pdf_text r = extract_text_from_pdf pages
      /\ pdf_text r <> []
      /\ extracted_topics r = extract_topics (pdf_text r) K
      /\ exists summary,
           summary_output r = Ok summary
           /\ (forall sentences, lsa = Ok sentences ->
                summary = join (lit " ") sentences)
           /\ (forall e, lsa = Raise e ->
                fallback_summarize (pdf_text r) N = Ok summary
                /\ summary <> [])
  end.
Proof.
  intro HN. unfold process_pdf.
  destruct (str_eq_dec (extract_text_from_pdf pages) []) as [E | E].
  - rewrite E, str_eqb_refl. reflexivity.
  - rewrite (str_eqb_neq _ _ E). cbn [negb pdf_text summary_output
                                       extracted_topics].
    repeat split; try exact E.
    destruct (summarize_text_Ok lsa (extract_text_from_pdf pages) N)
      as [summary [Hs [Hok Hraise]]].
    exists summary. split; [ exact Hs | split; [ exact Hok | ] ].
    intros e He. split; [ now apply (Hraise e) | ].
    apply (fallback_summary_not_empty (extract_text_from_pdf pages) _ N HN).
    + apply trimmed_has_word; [ exact E | ].
      destruct pages as [l | e']; [ apply strip_trimmed | now elim E ].
    + now apply (Hraise e).
Qed.

Lemma pdf_page_results_witness :
  1 <= 1
  /\ process_pdf (Ok [lit " Page one. "; lit ""; lit "Page three."])
       (Raise IndexError) 1 5
     = Some {| pdf_text := lit "Page one. " ++ ["010"%char; "010"%char]
                           ++ lit "Page three.";
               summary_output := Ok (lit "Page one.");
               extracted_topics := [lit "page"; lit "one"; lit "three"] |}.
Proof.
  assert (H : 1 <= 1) by lia.
  split; [ exact H | ].
  pose proof (pdf_page_results
                (Ok [lit " Page one. "; lit ""; lit "Page three."])
                (Raise IndexError) 1 5 H) as P.
  destruct (process_pdf (Ok [lit " Page one. "; lit ""; lit "Page three."])
              (Raise IndexError) 1 5) as [r | ] eqn:E.
  - rewrite <- E. vm_compute. reflexivity.
  - vm_compute in P. discriminate P.
Defined.

(** ** More on the statistics of [analyze_text] *)

Lemma split_from_lower (word s : str) :
  split_from (map lower_char word) (map lower_char s)
  = map (map lower_char) (split_from word s).
Proof.
  revert word. induction s as [ | c r IH]; intro word.
  - destruct word as [ | a w]; [ reflexivity | ].
    cbn [map split_from].
    change (lower_char a :: map lower_char w) with (map lower_char (a :: w)).
    now rewrite <- map_rev.
  - cbn [map split_from]. rewrite isspace_lower.
    destruct (isspace c).
    + destruct word as [ | a w].
      * apply (IH []).
      * cbn [map]. rewrite <- (IH []).
        change (lower_char a :: map lower_char w)
          with (map lower_char (a :: w)).
        now rewrite <- map_rev.
    + apply (IH (c :: word)).
Qed.

Lemma split_lower (s : str) : split (lower s) = map lower (split s).
Proof. apply (split_from_lower [] s). Qed.

Lemma lstrip_lower (s : str) :
  lstrip (map lower_char s) = map lower_char (lstrip s).
Proof.
  induction s as [ | c r IH].
  - reflexivity.
  - cbn [map lstrip]. rewrite isspace_lower.
    destruct (isspace c); [ exact IH | reflexivity ].
Qed.

Lemma strip_lower (s : str) : strip (lower s) = lower (strip s).
Proof.
  unfold strip, rstrip, lower.
  now rewrite lstrip_lower, <- map_rev, lstrip_lower, map_rev.
Qed.

Lemma coarse_split_lower (before before' piece s : str) :
  re_split_from (fun _ c => sentence_end c) before'
    (map lower_char piece) (map lower_char s)
  = map (map lower_char)
      (re_split_from (fun _ c => sentence_end c) before piece s).
Proof.
  revert before before' piece. induction s as [ | c r IH];
    intros before before' piece.
  - cbn [map re_split_from]. now rewrite map_rev.
  - cbn [map re_split_from]. rewrite sentence_end_lower.
    destruct (sentence_end c).
    + cbn [map]. rewrite <- (IH (c :: before) (lower_char c :: before') []).
      now rewrite map_rev.
    + apply (IH (c :: before) (lower_char c :: before') (c :: piece)).
Qed.

Lemma length_kept_pieces_lower (pieces : list str) :
  length (map strip (filter (fun s => negb (str_eqb (strip s) []))
                       (map lower pieces)))
  = length (map strip (filter (fun s => negb (str_eqb (strip s) [])) pieces)).
Proof.
  rewrite !length_map. induction pieces as [ | s r IH].
  - reflexivity.
  - cbn [map filter]. rewrite strip_lower.
    assert (E : str_eqb (lower (strip s)) [] = str_eqb (strip s) []).
    { destruct (strip s); reflexivity. }
    rewrite E. destruct (str_eqb (strip s) []); cbn [negb length];
      now rewrite IH.
Qed.

(** X16.  Apart from the number of characters, the statistics of
    [analyze_text] do not depend on the case of the letters: the lower-cased
    text has the same numbers of words and of sentences and the same three
    counters of repeated words.  (The number of characters is left out:
    outside U+0000..U+00FF lower-casing can change the length of a text.) *)
Theorem statistics_ignore_case (text : str) :
  Total_Words (analyze_text (lower text)) = Total_Words (analyze_text text)
  /\ Total_Sentences (analyze_text (lower text))
     = Total_Sentences (analyze_text text)
  /\ Single_Word_Repeated (analyze_text (lower text))
     = Single_Word_Repeated (analyze_text text)
  /\ Double_Word_Repeated (analyze_text (lower text))
     = Double_Word_Repeated (analyze_text text)
  /\ Triple_Word_Repeated (analyze_text (lower text))
     = Triple_Word_Repeated (analyze_text text).
Proof.
  unfold analyze_text.
  cbn [Total_Words Total_Sentences Single_Word_Repeated
         Double_Word_Repeated Triple_Word_Repeated].
  assert (Hw : analyze_words (lower text) = analyze_words text).
  { unfold analyze_words. rewrite split_lower, map_map.
    apply map_ext, lower_idempotent. }
  rewrite Hw. repeat split.
  unfold len, re_split. f_equal.
  change (re_split_from (fun _ c => sentence_end c) [] [] (lower text))
    with (re_split_from (fun _ c => sentence_end c) []
            (map lower_char []) (map lower_char text)).
  rewrite (coarse_split_lower [] [] [] text).
  apply length_kept_pieces_lower.
Qed.

Lemma length_split (s : str) : (length (split s) <= length s)%nat.
Proof.
  apply Nat.le_trans with (length (concat (split s))).
  - apply length_concat_nonempty, Forall_forall.
    intros w Hw. now apply In_split in Hw.
  - unfold split. rewrite concat_split_from. apply filter_length_le.
Qed.

Lemma length_concat_re_split_from (p : str -> ascii -> bool)
    (s before piece : str) :
  (length (concat (re_split_from p before piece s))
   <= length piece + length s)%nat.
Proof.
  revert before piece. induction s as [ | c r IH]; intros before piece;
    cbn [re_split_from].
  - cbn [concat]. rewrite app_nil_r, length_rev. simpl. lia.
  - destruct (p before c).
    + cbn [concat]. rewrite length_app, length_rev.
      specialize (IH (c :: before) []). simpl in *. lia.
    + specialize (IH (c :: before) (c :: piece)). simpl in *. lia.
Qed.

Lemma length_kept_pieces (pieces : list str) :
  (length (map strip (filter (fun s => negb (str_eqb (strip s) [])) pieces))
   <= length (concat pieces))%nat.
Proof.
  rewrite length_map. induction pieces as [ | s r IH].
  - simpl. lia.
  - cbn [filter concat]. rewrite length_app.
    destruct (str_eq_dec (strip s) []) as [E | E].
    + rewrite E, str_eqb_refl. cbn [negb]. lia.
    + rewrite (str_eqb_neq _ _ E). cbn [negb length].
      destruct s as [ | c s']; [ now elim E | simpl length; lia ].
Qed.

Lemma list_sum_cons (x : nat) (l : list nat) :
  list_sum (x :: l) = (x + list_sum l)%nat.
Proof. reflexivity. Qed.

Section Occurrences.
Context {A : Type} (dec : forall a b : A, {a = b} + {a <> b}).

Lemma list_sum_indicator (a : A) (D : list A) :
  NoDup D -> In a D ->
  list_sum (map (fun w => if dec a w then 1 else 0)%nat D) = 1%nat.
Proof.
  induction D as [ | x D IH]; intros Hnd Hin.
  - contradiction.
  - inversion Hnd as [ | ? ? Hx HD]; subst. cbn [map]; rewrite list_sum_cons.
    destruct (dec a x) as [E | E].
    + subst x.
      assert (Z : list_sum (map (fun w => if dec a w then 1 else 0)%nat D) = 0%nat).
      { clear IH Hin HD Hnd. induction D as [ | y D IH]; [ reflexivity | ].
        cbn [map]; rewrite list_sum_cons. destruct (dec a y) as [-> | _].
        - exfalso. apply Hx. now left.
        - rewrite IH; [ reflexivity | ]. intro H. apply Hx. now right. }
      rewrite Z. reflexivity.
    + destruct Hin as [-> | Hin]; [ congruence | ]. now rewrite IH.
Qed.

(** Every occurrence is an occurrence of one of the distinct elements. *)
Lemma list_sum_count_occ (D ws : list A) :
  NoDup D -> incl ws D ->
  list_sum (map (count_occ dec ws) D) = length ws.
Proof.
  intros Hnd. induction ws as [ | a r IH]; intro Hincl.
  - clear Hnd Hincl. induction D as [ | x D IH]; [ reflexivity | ].
    cbn [map]; rewrite list_sum_cons. now rewrite IH.
  - assert (E : forall l,
               list_sum (map (count_occ dec (a :: r)) l)
               = (list_sum (map (fun w => if dec a w then 1 else 0) l)
                  + list_sum (map (count_occ dec r) l))%nat).
    { induction l as [ | x l IHl]; [ reflexivity | ].
      cbn [map]; rewrite !list_sum_cons. rewrite IHl.
      cbn [count_occ]. destruct (dec a x); lia. }
    rewrite E, list_sum_indicator, IH; [ reflexivity | | exact Hnd | ].
    + intros x Hx. apply Hincl. now right.
    + apply Hincl. now left.
Qed.

Lemma weighted_occurrences (count : A -> nat) (D : list A) :
  (2 * length (filter (fun w => (Z.of_nat (count w) =? 2)%Z) D)
   + 3 * length (filter (fun w => (Z.of_nat (count w) =? 3)%Z) D)
   + 4 * length (filter (fun w => (Z.of_nat (count w) =? 4)%Z) D)
   <= list_sum (map count D))%nat.
Proof.
  induction D as [ | x D IH]; [ simpl; lia | ].
  cbn [filter map]. rewrite list_sum_cons.
  destruct (Z.eqb_spec (Z.of_nat (count x)) 2);
    destruct (Z.eqb_spec (Z.of_nat (count x)) 3);
    destruct (Z.eqb_spec (Z.of_nat (count x)) 4);
    cbn [length]; lia.
Qed.

End Occurrences.

(** X17.  The numbers of [analyze_text] fit together: there are at most as
    many words and at most as many sentences as characters, and the words
    that occur twice, three times and four times account for at most all
    the words: 2 * single + 3 * double + 4 * triple <= total words. *)
Theorem statistics_bounds (text : str) :
  let r := analyze_text text in
  0 <= Total_Words r <= Total_Characters r
  /\ 0 <= Total_Sentences r <= Total_Characters r
  /\ 0 <= Single_Word_Repeated r
  /\ 0 <= Double_Word_Repeated r
  /\ 0 <= Triple_Word_Repeated r
  /\ 2 * Single_Word_Repeated r + 3 * Double_Word_Repeated r
     + 4 * Triple_Word_Repeated r <= Total_Words r.
Proof.
  unfold analyze_text.
  cbn [Total_Words Total_Characters Total_Sentences Single_Word_Repeated
         Double_Word_Repeated Triple_Word_Repeated].
  rewrite !count_with_occurring. unfold len.
  assert (Hw : (length (analyze_words text) <= length text)%nat).
  { unfold analyze_words. rewrite length_map. apply length_split. }
  assert (Hs : (length (map strip
                          (filter (fun s => negb (str_eqb (strip s) []))
                             (re_split (fun _ c => sentence_end c) text)))
                <= length text)%nat).
  { eapply Nat.le_trans; [ apply length_kept_pieces | ].
    apply (length_concat_re_split_from _ text [] []). }
  assert (Hr := weighted_occurrences
                  (count_occ str_eq_dec (analyze_words text))
                  (nodup str_eq_dec (analyze_words text))).
  rewrite (list_sum_count_occ str_eq_dec) in Hr.
  - unfold occurring. lia.
  - apply NoDup_nodup.
  - intros x Hx. now apply nodup_In.
Qed.

(** ** Languages *)

(** X18.  The two language tables are inverse to each other: a code that
    [detect_language] names is the code [translate_text] uses for that
    name, and the name of the code of a language of [translate_text] is
    that language.  Every language the page offers has a code of its own
    in the table, so the default "en" is used for English only. *)
Theorem language_tables_round_trip :
  (forall code name,
      In (code, name) lang_map ->
      detect_language (Ok code) = name /\ target_code name = code)
  /\ (forall name code,
         In (name, code) languages ->
         target_code name = code /\ detect_language (Ok code) = name)
  /\ (forall name,
         In name offered_languages ->
         In (name, target_code name) languages
         /\ (target_code name = lit "en" -> name = lit "English")).
Proof.
  split; [ | split ].
  - intros code name H.
    repeat (destruct H as [H | H];
            [ injection H as <- <-; split; vm_compute; reflexivity | ]).
    contradiction.
  - intros name code H.
    repeat (destruct H as [H | H];
            [ injection H as <- <-; split; vm_compute; reflexivity | ]).
    contradiction.
  - intros name H.
    repeat (destruct H as [H | H];
            [ subst name; split;
              [ vm_compute; repeat first [ left; reflexivity | right ]
              | vm_compute; intro E; first [ reflexivity | discriminate E ] ]
            | ]).
    contradiction.
Qed.

(** ** Accounts *)

Lemma select_email_None (table : users) (email : str) :
  select_email table email = None <-> ~ In email (map fst table).
Proof.
  unfold select_email. induction table as [ | [e h] r IH]; cbn [find map fst].
  - split; [ intros _ [] | reflexivity ].
  - case_str e email.
    + split; [ discriminate | intro H; elim H; now left ].
    + rewrite IH. cbn [In]. intuition congruence.
Qed.

Lemma select_email_app (table : users) (row : str * str) (email : str) :
  select_email (table ++ [row]) email
  = match select_email table email with
    | Some found => Some found
    | None => if str_eqb (fst row) email then Some row else None
    end.
Proof.
  unfold select_email. induction table as [ | [e h] r IH]; cbn [app find fst].
  - now destruct (str_eqb (fst row) email).
  - now destruct (str_eqb e email).
Qed.

Lemma select_email_password_In (table : users) (email password : str) :
  (exists row, select_email_password table email password = Some row)
  <-> In (email, password) table.
Proof.
  unfold select_email_password. split.
  - intros [row H]. apply find_some in H. destruct H as [Hin Hb].
    apply andb_true_iff in Hb. destruct Hb as [He Hp].
    apply str_eqb_eq in He, Hp. destruct row as [e h]. simpl in *. now subst.
  - intro H.
    destruct (find (fun row => str_eqb (fst row) email
                               && str_eqb (snd row) password) table) as [row | ] eqn:E.
    + now exists row.
    + exfalso. apply (find_none _ _ E) in H. cbn [fst snd] in H.
      now rewrite !str_eqb_refl in H.
Qed.

Lemma NoDup_append_row (table : users) (email password : str) :
  ~ In email (map fst table) -> NoDup (map fst table) ->
  NoDup (map fst (table ++ [(email, password)])).
Proof.
  intros Hout Hnd. rewrite map_app. cbn [map fst].
  apply NoDup_app; [ exact Hnd | repeat constructor; intros [] | ].
  intros x Hx [<- | []]. contradiction.
Qed.

Lemma select_email_Some (table : users) (email : str) (row : str * str) :
  select_email table email = Some row -> fst row = email /\ In row table.
Proof.
  unfold select_email. intro H. apply find_some in H.
  destruct H as [Hin Hb]. apply str_eqb_eq in Hb. now split.
Qed.

Lemma select_email_In (table : users) (email password : str) :
  NoDup (map fst table) ->
  (select_email table email = Some (email, password)
   <-> In (email, password) table).
Proof.
  intro Hnd. split.
  - intro H. now apply select_email_Some in H.
  - unfold select_email.
    induction table as [ | [e h] r IH]; intro H; [ contradiction | ].
    inversion Hnd as [ | ? ? He Hr]; subst. cbn [find fst].
    destruct H as [H | H].
    + injection H as -> ->. now rewrite str_eqb_refl.
    + case_str e email.
      * elim He. apply in_map_iff. now exists (email, password).
      * now apply IH.
Qed.

Section AccountFacts.
Variable hash_password : str -> str.

Lemma login_In (table : users) (email password : str) :
  login hash_password table email password = true
  <-> In (email, hash_password password) table.
Proof.
  rewrite <- select_email_password_In. unfold login.
  destruct (select_email_password table email (hash_password password)) as [row | ].
  - split; [ intros _; now exists row | reflexivity ].
  - split; [ discriminate | intros [row H]; discriminate ].
Qed.

Lemma signup_cases (table : users) (email password : str) :
  (In email (map fst table)
   /\ signup hash_password table email password = Some (false, table))
  \/ (~ In email (map fst table)
      /\ signup hash_password table email password
         = Some (true, table ++ [(email, hash_password password)])).
Proof.
  unfold signup, insert_user.
  destruct (select_email table email) as [row | ] eqn:E.
  - left. split; [ | reflexivity ].
    destruct (in_dec str_eq_dec email (map fst table)) as [H | H];
      [ exact H | ].
    apply select_email_None in H. congruence.
  - right. split; [ now apply select_email_None | reflexivity ].
Qed.

(** X19.  [signup] raises nothing, whatever the table: it answers [False]
    and leaves the table as it is when the email is registered, and answers
    [True] and appends one row, the email with the hash of the password,
    when it is not.  The emails of the table stay distinct. *)
Theorem signup_keeps_emails_distinct (table : users) (email password : str) :
  exists created table',
    signup hash_password table email password = Some (created, table')
    /\ (created = false <-> In email (map fst table))
    /\ table' = (if created
                 then table ++ [(email, hash_password password)]
                 else table)
    /\ (NoDup (map fst table) -> NoDup (map fst table')).
Proof.
  destruct (signup_cases table email password) as [[Hin E] | [Hout E]].
  - exists false, table. repeat split; trivial.
  - exists true, (table ++ [(email, hash_password password)]).
    repeat split; trivial; try discriminate.
    + intro H. contradiction.
    + now apply NoDup_append_row.
Qed.

(** X20.  After a signup that created the account, [login] with the same
    email and password succeeds; and a signup changes the answer of [login]
    for nothing else: for every other email, and for every email after a
    signup that was refused, [login] answers as before. *)
Theorem signup_then_login (table table' : users) (email password : str)
    (created : bool) :
  signup hash_password table email password = Some (created, table') ->
  (created = true -> login hash_password table' email password = true)
  /\ (forall email' password',
         email' <> email \/ created = false ->
         login hash_password table' email' password'
         = login hash_password table email' password').
Proof.
  intro H.
  destruct (signup_cases table email password) as [[Hin E] | [Hout E]];
    rewrite E in H; injection H as <- <-.
  - split; [ discriminate | reflexivity ].
  - split.
    + intros _. apply login_In, in_or_app. right. now left.
    + intros email' password' [Hne | Hf]; [ | discriminate ].
      apply eq_true_iff_eq. rewrite !login_In, in_app_iff.
      cbn [In]. intuition congruence.
Qed.

Lemma select_email_signups (requests : list (str * str)) (table : users)
    (email : str) :
  select_email (signups hash_password table requests) email
  = match select_email table email with
    | Some row => Some row
    | None =>
        match select_email requests email with
        | Some (e, p) => Some (e, hash_password p)
        | None => None
        end
    end.
Proof.
  revert table. induction requests as [ | [e p] r IH]; intro table.
  - unfold signups. cbn [fold_left].
    destruct (select_email table email); reflexivity.
  - change (signups hash_password table ((e, p) :: r))
      with (signups hash_password
              (match signup hash_password table e p with
               | Some (_, table') => table'
               | None => table
               end) r).
    rewrite IH. change (select_email ((e, p) :: r) email)
      with (if str_eqb e email then Some (e, p) else select_email r email).
    destruct (signup_cases table e p) as [[Hin E] | [Hout E]]; rewrite E.
    + destruct (select_email table email) as [row | ] eqn:S; [ reflexivity | ].
      apply select_email_None in S.
      rewrite (str_eqb_neq e email) by (intro; subst; contradiction).
      reflexivity.
    + rewrite select_email_app. cbn [fst].
      destruct (select_email table email) as [row | ]; [ reflexivity | ].
      now destruct (str_eqb e email).
Qed.

Lemma NoDup_signups (requests : list (str * str)) (table : users) :
  NoDup (map fst table) ->
  NoDup (map fst (signups hash_password table requests)).
Proof.
  revert table. induction requests as [ | [e p] r IH]; intros table H.
  - exact H.
  - change (signups hash_password table ((e, p) :: r))
      with (signups hash_password
              (match signup hash_password table e p with
               | Some (_, table') => table'
               | None => table
               end) r).
    apply IH.
    destruct (signup_cases table e p) as [[Hin E] | [Hout E]]; rewrite E;
      [ exact H | now apply NoDup_append_row ].
Qed.

(** X21.  The first signup of an email fixes its password.  After any
    series of signups on an empty table, [login] succeeds exactly when the
    first signup with the email had a password with the same hash; a later
    signup with the email changes nothing. *)
Theorem first_signup_wins (requests : list (str * str))
    (email password : str) :
  login hash_password (signups hash_password [] requests) email password
  = true
  <-> exists first,
        select_email requests email = Some (email, first)
        /\ hash_password first = hash_password password.
Proof.
  rewrite login_In.
  rewrite <- (select_email_In _ _ _ (NoDup_signups requests [] (NoDup_nil _))).
  rewrite select_email_signups. cbn [select_email find].
  destruct (select_email requests email) as [[e p] | ] eqn:E.
  - apply select_email_Some in E. destruct E as [E _]. cbn [fst] in E. subst e.
    split.
    + intro H. injection H as H. now exists p.
    + intros [first [H Hh]]. injection H as <-. now rewrite Hh.
  - split; [ discriminate | intros [first [H _]]; discriminate ].
Qed.

End AccountFacts.

(** ** Pages *)

Section PageFacts.
Variable hash_password : str -> str.

Lemma consistent_cases (s : state) :
  consistent s = true ->
  (authenticated s = false /\ page s = lit "login")
  \/ (authenticated s = true /\ In (page s) inner_pages).
Proof.
  unfold consistent. destruct (authenticated s).
  - intro H. right. split; [ reflexivity | ].
    apply existsb_exists in H. destruct H as [x [Hx E]].
    apply str_eqb_eq in E. now subst.
  - intro H. left. split; [ reflexivity | now apply str_eqb_eq ].
Qed.

Ltac outcomes :=
  repeat match goal with
    | |- context [login ?h ?t ?e ?p] => destruct (login h t e p)
    | |- context [signup ?h ?t ?e ?p] => destruct (signup h t e p) as [[? ?] | ]
    | |- context [str_eqb (strip ?x) []] => destruct (str_eqb (strip x) [])
    | |- context [str_eqb ?x (lit ?y)] =>
        is_var x; destruct (str_eqb x (lit y))
    | |- context [str_eqb ?x []] => is_var x; destruct (str_eqb x [])
    end.

Lemma handle_consistent (s : state) (c : click) :
  consistent s = true -> consistent (handle hash_password s c) = true.
Proof.
  intro H. apply consistent_cases in H.
  destruct s as [t a p]. cbn [authenticated page] in H.
  destruct H as [[-> ->] | [-> Hin]].
  - destruct c; unfold handle; cbn [table authenticated page];
      try destruct translated; outcomes; vm_compute; reflexivity.
  - repeat (destruct Hin as [<- | Hin];
            [ destruct c; unfold handle; cbn [table authenticated page];
              try destruct translated; outcomes; vm_compute; reflexivity
            | ]).
    contradiction.
Qed.

Lemma clicks_consistent (l : list click) (s : state) :
  consistent s = true -> consistent (clicks hash_password s l) = true.
Proof.
  revert s. induction l as [ | c l IH]; intros s H.
  - exact H.
  - apply (IH (handle hash_password s c)). now apply handle_consistent.
Qed.

(** X22.  Whatever is clicked from a new session, the session is
    authenticated exactly when it is not on the login page, and its page is
    the login page or one of the ten pages behind it: the dispatch always
    has a page to show, and none behind the login without authentication. *)
Theorem session_stays_consistent (users_table : users) (l : list click) :
  let s := clicks hash_password (start users_table) l in
  (authenticated s = true <-> page s <> lit "login")
  /\ (page s = lit "login" \/ In (page s) inner_pages).
Proof.
  intro s.
  assert (H : consistent s = true) by (apply clicks_consistent; reflexivity).
  apply consistent_cases in H. destruct H as [[Ha Hp] | [Ha Hin]].
  - rewrite Ha, Hp. split; [ | now left ].
    split; [ discriminate | intro H; now elim H ].
  - rewrite Ha. split; [ | now right ].
    split; [ | reflexivity ]. intros _ E. rewrite E in Hin.
    apply In_existsb in Hin. vm_compute in Hin. discriminate.
Qed.

Lemma handle_table (s : state) (c : click) :
  incl (table s) (table (handle hash_password s c)).
Proof.
  destruct c; unfold handle;
    repeat match goal with
      | |- context [if ?b then _ else _] => destruct b
      end;
    try apply incl_refl.
  destruct (signup_cases hash_password (table s) email password)
    as [[_ E] | [_ E]]; rewrite E; cbn [table];
    [ apply incl_refl | apply incl_appl, incl_refl ].
Qed.

Lemma handle_authenticated (s : state) (c : click) :
  authenticated (handle hash_password s c) = true ->
  authenticated s = true
  \/ exists email password,
       c = Sign_In email password
       /\ In (email, hash_password password) (table s).
Proof.
  destruct c; unfold handle;
    try (repeat match goal with
           | |- context [if ?b then _ else _] => destruct b
           end;
         cbn [authenticated set_page go_home log_out];
         first [ now left | discriminate ]).
  - destruct (shown s "login"); [ | now left ].
    destruct (signup hash_password (table s) email password) as [[? ?] | ];
      now left.
  - destruct (shown s "login"); [ | now left ].
    destruct (login hash_password (table s) email password) eqn:E;
      [ | now left ].
    intros _. right. exists email, password. split; [ reflexivity | ].
    now apply login_In in E.
Qed.

Lemma clicks_app (s : state) (l1 l2 : list click) :
  clicks hash_password s (l1 ++ l2)
  = clicks hash_password (clicks hash_password s l1) l2.
Proof. unfold clicks. apply fold_left_app. Qed.

(** X23.  Nobody gets in without the password: a session that is
    authenticated after a series of clicks has clicked "Sign In" with an
    email and a password whose hash is in the table under that email. *)
Theorem authenticated_by_password (users_table : users) (l : list click) :
  authenticated (clicks hash_password (start users_table) l) = true ->
  exists email password,
    In (Sign_In email password) l
    /\ In (email, hash_password password)
         (table (clicks hash_password (start users_table) l)).
Proof.
  induction l as [ | c l IH] using rev_ind.
  - discriminate.
  - rewrite clicks_app. cbn [clicks fold_left].
    fold (clicks hash_password (start users_table) l).
    set (s := clicks hash_password (start users_table) l) in *.
    intro H. apply handle_authenticated in H.
    destruct H as [H | [email [password [-> H]]]].
    + destruct (IH H) as [email [password [Hin Ht]]].
      exists email, password. split.
      * apply in_or_app. now left.
      * now apply handle_table.
    + exists email, password. split.
      * apply in_or_app. right. now left.
      * now apply handle_table.
Qed.

(** X24.  From wherever the clicks have led, the login page is at most two
    clicks away: "Logout" on the options and profile pages, "Home" and
    then "Logout" on the others. *)
Theorem logout_within_two_clicks (users_table : users) (l : list click) :
  exists l',
    (length l' <= 2)%nat
    /\ authenticated
         (clicks hash_password (clicks hash_password (start users_table) l) l')
       = false
    /\ page (clicks hash_password (clicks hash_password (start users_table) l) l')
       = lit "login".
Proof.
  assert (H : consistent (clicks hash_password (start users_table) l) = true)
    by (apply clicks_consistent; reflexivity).
  apply consistent_cases in H.
  destruct (clicks hash_password (start users_table) l) as [t a p].
  cbn [authenticated page] in H.
  destruct H as [[-> ->] | [-> Hin]].
  - exists []. repeat split. simpl. lia.
  - repeat (destruct Hin as [<- | Hin];
            [ first [ exists [Logout]; split; [ simpl; lia | ];
                      split; vm_compute; reflexivity
                    | exists [Home; Logout]; split; [ simpl; lia | ];
                      split; vm_compute; reflexivity ]
            | ]).
    contradiction.
Qed.

End PageFacts.

(** ** Runs of the accounts and the pages *)

Lemma language_tables_round_trip_witness :
  In (lit "zh-cn", lit "Chinese") lang_map
  /\ detect_language (Ok (lit "zh-cn")) = lit "Chinese"
  /\ target_code (lit "Chinese") = lit "zh-cn".
Proof.
  assert (H : In (lit "zh-cn", lit "Chinese") lang_map)
    by (vm_compute; repeat first [ left; reflexivity | right ]).
  exact (conj H (proj1 language_tables_round_trip _ _ H)).
Defined.

Lemma signup_keeps_emails_distinct_witness :
  NoDup (map fst [(lit "ann@example.org", rev (lit "first"))])
  /\ exists created table',
       signup (@rev ascii) [(lit "ann@example.org", rev (lit "first"))]
         (lit "bob@example.org") (lit "second") = Some (created, table')
       /\ NoDup (map fst table').
Proof.
  assert (H : NoDup (map fst [(lit "ann@example.org", rev (lit "first"))]))
    by (repeat constructor; intros []).
  split; [ exact H | ].
  destruct (signup_keeps_emails_distinct (@rev ascii)
              [(lit "ann@example.org", rev (lit "first"))]
              (lit "bob@example.org") (lit "second"))
    as [created [table' [E [_ [_ Hnd]]]]].
  exists created, table'. exact (conj E (Hnd H)).
Defined.

Lemma signup_then_login_witness :
  signup (@rev ascii) [] (lit "ann@example.org") (lit "first")
  = Some (true, [(lit "ann@example.org", rev (lit "first"))])
  /\ login (@rev ascii) [(lit "ann@example.org", rev (lit "first"))]
       (lit "ann@example.org") (lit "first") = true.
Proof.
  assert (H : signup (@rev ascii) [] (lit "ann@example.org") (lit "first")
              = Some (true, [(lit "ann@example.org", rev (lit "first"))]))
    by reflexivity.
  exact (conj H (proj1 (signup_then_login (@rev ascii) _ _ _ _ _ H) eq_refl)).
Defined.

Lemma authenticated_by_password_witness :
  authenticated
    (clicks (@rev ascii) (start [])
       [Create_Account (lit "ann@example.org") (lit "first");
        Sign_In (lit "ann@example.org") (lit "first");
        Open_PDF_Processor]) = true
  /\ exists email password,
       In (Sign_In email password)
         [Create_Account (lit "ann@example.org") (lit "first");
          Sign_In (lit "ann@example.org") (lit "first");
          Open_PDF_Processor]
       /\ In (email, rev password)
            (table
               (clicks (@rev ascii) (start [])
                  [Create_Account (lit "ann@example.org") (lit "first");
                   Sign_In (lit "ann@example.org") (lit "first");
                   Open_PDF_Processor])).
Proof.
  assert (H : authenticated
                (clicks (@rev ascii) (start [])
                   [Create_Account (lit "ann@example.org") (lit "first");
                    Sign_In (lit "ann@example.org") (lit "first");
                    Open_PDF_Processor]) = true)
    by (vm_compute; reflexivity).
  exact (conj H (authenticated_by_password (@rev ascii) [] _ H)).
Defined.

(** A wrong password, an account created twice and a page that is not
    shown. *)
Example pages_run :
  page (clicks (@rev ascii) (start [])
          [Sign_In (lit "ann@example.org") (lit "first");
           Create_Account (lit "ann@example.org") (lit "first");
           Create_Account (lit "ann@example.org") (lit "other");
           Sign_In (lit "ann@example.org") (lit "other");
           Open_Translation]) = lit "login"
  /\ page (clicks (@rev ascii) (start [])
             [Create_Account (lit "ann@example.org") (lit "first");
              Sign_In (lit "ann@example.org") (lit "first");
              Open_Translation; Detect_Language (lit "  ");
              Detect_Language (lit "Bonjour"); Translate_Now true; Back])
     = lit "translation_select".
Proof. split; vm_compute; reflexivity. Qed.

(** ** Ties between topics *)

Section Precedes.
Context {A : Type}.

Lemma precedes_cons (x a b : A) (l : list A) :
  precedes a b l -> precedes a b (x :: l).
Proof.
  intros [l1 [l2 [l3 E]]]. exists (x :: l1), l2, l3. now rewrite E.
Qed.

Lemma precedes_head (a b : A) (l : list A) : In b l -> precedes a b (a :: l).
Proof.
  intro H. apply in_split in H. destruct H as [l2 [l3 E]].
  exists [], l2, l3. now rewrite E.
Qed.

Lemma precedes_cons_inv (x a b : A) (l : list A) :
  precedes a b (x :: l) -> (a = x /\ In b l) \/ precedes a b l.
Proof.
  intros [l1 [l2 [l3 E]]]. destruct l1 as [ | y l1]; simpl in E.
  - injection E as -> ->. left. split; [ reflexivity | ].
    apply in_or_app. right. now left.
  - injection E as -> ->. right. now exists l1, l2, l3.
Qed.

Lemma precedes_In (a b : A) (l : list A) :
  precedes a b l -> In a l /\ In b l.
Proof.
  intros [l1 [l2 [l3 ->]]]. split.
  - apply in_or_app. right. now left.
  - apply in_or_app. right. right. apply in_or_app. right. now left.
Qed.

Lemma precedes_app_l (a b : A) (l l' : list A) :
  precedes a b l -> precedes a b (l ++ l').
Proof.
  intros [l1 [l2 [l3 ->]]]. exists l1, l2, (l3 ++ l').
  now rewrite <- !app_assoc, <- !app_comm_cons, <- app_assoc.
Qed.

Lemma precedes_filter (f : A -> bool) (a b : A) (l : list A) :
  precedes a b (filter f l) -> precedes a b l.
Proof.
  induction l as [ | x l IH]; cbn [filter]; intro H.
  - destruct H as [[ | ? ?] [? [? E]]]; discriminate.
  - destruct (f x).
    + apply precedes_cons_inv in H. destruct H as [[-> Hb] | H].
      * apply precedes_head. now apply filter_In in Hb.
      * now apply precedes_cons, IH.
    + now apply precedes_cons, IH.
Qed.

Lemma precedes_map {B} (f : A -> B) (a b : B) (l : list A) :
  precedes a b (map f l) ->
  exists x y, f x = a /\ f y = b /\ precedes x y l.
Proof.
  intros [l1 [l2 [l3 E]]].
  apply map_eq_app in E. destruct E as [m1 [m [-> [_ E]]]].
  apply map_eq_cons in E. destruct E as [x [m' [-> [Ex E]]]].
  apply map_eq_app in E. destruct E as [m2 [m'' [-> [_ E]]]].
  apply map_eq_cons in E. destruct E as [y [m3 [-> [Ey _]]]].
  exists x, y. repeat split; trivial. now exists m1, m2, m3.
Qed.

Lemma precedes_snoc_inv (x a b : A) (l : list A) :
  precedes a b (l ++ [x]) -> precedes a b l \/ (In a l /\ b = x).
Proof.
  intros [l1 [l2 [l3 E]]].
  destruct l3 as [ | z l3] using rev_ind.
  - right. replace (l1 ++ a :: l2 ++ [b]) with ((l1 ++ a :: l2) ++ [b]) in E
      by now rewrite <- app_assoc.
    apply app_inj_tail in E. destruct E as [-> ->].
    split; [ apply in_or_app; right; now left | reflexivity ].
  - left. clear IHl3.
    replace (l1 ++ a :: l2 ++ b :: l3 ++ [z])
      with ((l1 ++ a :: l2 ++ b :: l3) ++ [z]) in E
      by (rewrite <- !app_assoc; cbn; now rewrite <- !app_assoc).
    apply app_inj_tail in E. destruct E as [-> _].
    now exists l1, l2, l3.
Qed.

Lemma seen_before_snoc (x a b : A) (l : list A) :
  seen_before a b l -> seen_before a b (l ++ [x]).
Proof.
  intros [l1 [l2 [-> H]]]. exists l1, (l2 ++ [x]).
  split; [ now rewrite <- app_assoc | exact H ].
Qed.

Lemma precedes_map_fwd {B} (f : A -> B) (a b : A) (l : list A) :
  precedes a b l -> precedes (f a) (f b) (map f l).
Proof.
  intros [l1 [l2 [l3 ->]]]. exists (map f l1), (map f l2), (map f l3).
  now rewrite map_app, map_cons, map_app, map_cons.
Qed.

(** A stable sort keeps the order of elements that compare equal. *)
Lemma precedes_insert (key : A -> Z) (x a b : A) (l : list A) :
  precedes a b (insert (fun y x => key x <? key y) x l) ->
  key a = key b -> precedes a b (x :: l).
Proof.
  induction l as [ | y l IH]; cbn [insert]; intros H E.
  - exact H.
  - destruct (Z.ltb_spec (key x) (key y)) as [Hlt | Hge]; [ | exact H ].
    apply precedes_cons_inv in H. destruct H as [[-> Hb] | H].
    + apply (Permutation_in _ (Permutation_insert _ x l)) in Hb.
      destruct Hb as [<- | Hb]; [ lia | ].
      apply precedes_cons. now apply precedes_head.
    + specialize (IH H E). apply precedes_cons_inv in IH.
      destruct IH as [[-> Hb] | IH].
      * apply precedes_head. now right.
      * now apply precedes_cons, precedes_cons.
Qed.

Lemma precedes_sorted_reverse (key : A -> Z) (a b : A) (l : list A) :
  precedes a b (sorted_reverse Z.ltb key l) ->
  key a = key b -> precedes a b l.
Proof.
  unfold sorted_reverse. induction l as [ | x l IH]; cbn [sorted_by];
    intros H E.
  - exact H.
  - apply precedes_insert in H; [ | exact E ].
    apply precedes_cons_inv in H. destruct H as [[-> Hb] | H].
    + apply precedes_head.
      now apply (Permutation_in _ (Permutation_sorted_by _ l)) in Hb.
    + now apply precedes_cons, IH.
Qed.

End Precedes.

Lemma keys_incr (w : str) (c : Counter) :
  keys (incr w c)
  = keys c ++ (if in_dec str_eq_dec w (keys c) then [] else [w]).
Proof.
  induction c as [ | [k v] r IH]; cbn [incr keys map fst].
  - reflexivity.
  - case_str k w.
    + cbn [keys map fst]. destruct (in_dec str_eq_dec w (w :: map fst r)) as [H | H].
      * now rewrite app_nil_r.
      * elim H. now left.
    + cbn [keys map fst]. fold (keys (incr w r)). rewrite IH.
      fold (keys r).
      destruct (in_dec str_eq_dec w (keys r)) as [H | H];
        destruct (in_dec str_eq_dec w (k :: keys r)) as [H' | H'];
        try reflexivity.
      * elim H'. now right.
      * destruct H' as [H' | H']; [ congruence | contradiction ].
Qed.

(** The keys of [Counter(words)] are in the order in which the words are
    first seen. *)
Lemma keys_Counter_of_order (ws : list str) (a b : str) :
  precedes a b (keys (Counter_of ws)) -> seen_before a b ws.
Proof.
  induction ws as [ | w ws IH] using rev_ind; intro H.
  - destruct H as [[ | ? ?] [? [? E]]]; discriminate.
  - unfold Counter_of in H. rewrite update_app in H.
    change (update (update [] ws) [w]) with (incr w (Counter_of ws)) in H.
    rewrite keys_incr in H.
    destruct (in_dec str_eq_dec w (keys (Counter_of ws))) as [Hin | Hout].
    + rewrite app_nil_r in H. now apply seen_before_snoc, IH.
    + apply precedes_snoc_inv in H. destruct H as [H | [Ha ->]].
      * now apply seen_before_snoc, IH.
      * apply (proj1 (In_keys_Counter_of _ _)) in Ha.
        apply in_split in Ha. destruct Ha as [l1 [l2 ->]].
        exists l1, (l2 ++ [w]). split; [ now rewrite <- app_assoc | ].
        intro Hw. apply Hout. apply (proj2 (In_keys_Counter_of _ _)).
        apply in_or_app. now left.
Qed.

(** X25.  Ties are broken by first occurrence: of two topics with the same
    frequency, the one that comes first in the result is the one seen first
    in the normalized text. *)
Theorem topic_ties_by_first_occurrence (text : str) (K : Z) (a b : str) :
  precedes a b (extract_topics text K) ->
  frequency text a = frequency text b ->
  seen_before a b (topic_words text).
Proof.
  intros H E. rewrite extract_topics_firstn in H.
  set (ranking := sorted_reverse Z.ltb snd (items (filtered_word_freq text))) in *.
  apply (precedes_app_l _ _ _ (skipn (Z.to_nat K) (map fst ranking))) in H.
  rewrite firstn_skipn in H.
  apply precedes_map in H. destruct H as [[a' va] [[b' vb] [Ea [Eb H]]]].
  cbn [fst] in Ea, Eb. subst a' b'.
  assert (Hv : va = vb).
  { destruct (precedes_In _ _ _ H) as [Ha Hb].
    apply (Permutation_in _ (Permutation_sorted_by _ _)) in Ha, Hb.
    apply filtered_word_freq_item in Ha, Hb.
    destruct Ha as [-> _], Hb as [-> _]. exact E. }
  apply precedes_sorted_reverse in H; [ | exact Hv ].
  apply precedes_filter in H.
  apply (precedes_map_fwd fst) in H.
  now apply keys_Counter_of_order in H.
Qed.

Lemma topic_ties_by_first_occurrence_witness :
  precedes (lit "ran") (lit "dog") (extract_topics cat_text 5)
  /\ frequency cat_text (lit "ran") = frequency cat_text (lit "dog")
  /\ seen_before (lit "ran") (lit "dog") (topic_words cat_text).
Proof.
  assert (H1 : precedes (lit "ran") (lit "dog") (extract_topics cat_text 5)).
  { exists [lit "cat"; lit "sat"], [], [lit "slept"]. vm_compute. reflexivity. }
  assert (H2 : frequency cat_text (lit "ran") = frequency cat_text (lit "dog"))
    by (vm_compute; reflexivity).
  exact (conj H1 (conj H2
           (topic_ties_by_first_occurrence cat_text 5 _ _ H1 H2))).
Defined.
